(** * node-utils: the AES-256-GCM string codec and the keyed promise engine

    A shallow embedding of [src/commonHelpers/index.ts]:
    [isPromise], [promiseAllRecord], [promisify], [aesEncryptData],
    [aesDecryptData], [bulkAesEncrypt] and [bulkAesDecrypt].

    JavaScript strings are sequences of UTF-16 code units, buffers are
    sequences of bytes; both are lists of [Z].  The Node.js primitives the
    helpers call ([Buffer], [crypto]) are not part of the repository; they
    are modelled from their documentation (Node 18, the version the package's
    type declarations target) and from the standards they implement (RFC 4648,
    the WHATWG UTF-8 decoder, FIPS 197, NIST SP 800-38D). *)

From Stdlib Require Import ZArith List Lia Bool.
From stdpp Require Import base list strings gmap.
Import ListNotations.
Local Open Scope Z_scope.

(** ** Bytes, buffers and JavaScript strings *)

Definition is_byte (b : Z) : Prop := 0 <= b < 256.
Definition is_bytes (bs : list Z) : Prop := Forall is_byte bs.

(** A JavaScript string: its UTF-16 code units. *)
Definition jsstring := list Z.
Definition is_code_unit (u : Z) : Prop := 0 <= u < 65536.

Definition in_range (lo hi x : Z) : bool := (lo <=? x) && (x <=? hi).

Definition is_high_surrogate (u : Z) : bool := in_range 0xD800 0xDBFF u.
Definition is_low_surrogate (u : Z) : bool := in_range 0xDC00 0xDFFF u.

(** Well-formed UTF-16: every code unit is in range and surrogates come in
    (high, low) pairs. *)
Fixpoint well_formed (s : jsstring) : bool :=
  match s with
  | [] => true
  | u :: rest =>
    if is_high_surrogate u then
      match rest with
      | l :: rest' => is_low_surrogate l && well_formed rest'
      | [] => false
      end
    else in_range 0 0xFFFF u && negb (is_low_surrogate u) && well_formed rest
  end.

Module Utf8.

(** The three bytes of U+FFFD, the replacement character. *)
Definition replacement : list Z := [0xEF; 0xBF; 0xBD].

Definition encode_code_point (cp : Z) : list Z :=
  if cp <? 0x80 then [cp]
  else if cp <? 0x800 then [0xC0 + cp / 64; 0x80 + cp mod 64]
  else if cp <? 0x10000 then
    [0xE0 + cp / 4096; 0x80 + (cp / 64) mod 64; 0x80 + cp mod 64]
  else
    [0xF0 + cp / 262144; 0x80 + (cp / 4096) mod 64;
     0x80 + (cp / 64) mod 64; 0x80 + cp mod 64].

(** Modelled from the documentation of [Buffer.from(string, 'utf8')]: the
    string's code points are written in UTF-8, a surrogate pair is one code
    point, and an unpaired surrogate is written as U+FFFD. *)
Fixpoint encode (s : jsstring) : list Z :=
  match s with
  | [] => []
  | u :: rest =>
    if is_high_surrogate u then
      match rest with
      | l :: rest' =>
        if is_low_surrogate l then
          encode_code_point (0x10000 + (u - 0xD800) * 1024 + (l - 0xDC00))
            ++ encode rest'
        else replacement ++ encode rest
      | [] => replacement
      end
    else if is_low_surrogate u then replacement ++ encode rest
    else encode_code_point u ++ encode rest
  end.

Definition is_cont (b : Z) : bool := in_range 0x80 0xBF b.

(** The code units of a decoded code point. *)
Definition code_units (cp : Z) : list Z :=
  if cp <? 0x10000 then [cp]
  else [0xD800 + (cp - 0x10000) / 1024; 0xDC00 + (cp - 0x10000) mod 1024].

(** Modelled from the documentation of [buf.toString('utf8')] and the WHATWG
    UTF-8 decoder it follows: a well-formed sequence gives its code point, an
    ill-formed one gives U+FFFD and decoding resumes after the longest prefix
    that could have started a well-formed sequence. *)
Fixpoint decode (bs : list Z) : jsstring :=
  match bs with
  | [] => []
  | b0 :: r0 =>
    if in_range 0 0x7F b0 then b0 :: decode r0
    else if in_range 0xC2 0xDF b0 then
      match r0 with
      | b1 :: r1 =>
        if is_cont b1 then ((b0 - 0xC0) * 64 + (b1 - 0x80)) :: decode r1
        else 0xFFFD :: decode r0
      | [] => [0xFFFD]
      end
    else if in_range 0xE0 0xEF b0 then
      match r0 with
      | b1 :: r1 =>
        if in_range (if b0 =? 0xE0 then 0xA0 else 0x80)
                    (if b0 =? 0xED then 0x9F else 0xBF) b1 then
          match r1 with
          | b2 :: r2 =>
            if is_cont b2 then
              ((b0 - 0xE0) * 4096 + (b1 - 0x80) * 64 + (b2 - 0x80)) :: decode r2
            else 0xFFFD :: decode r1
          | [] => [0xFFFD]
          end
        else 0xFFFD :: decode r0
      | [] => [0xFFFD]
      end
    else if in_range 0xF0 0xF4 b0 then
      match r0 with
      | b1 :: r1 =>
        if in_range (if b0 =? 0xF0 then 0x90 else 0x80)
                    (if b0 =? 0xF4 then 0x8F else 0xBF) b1 then
          match r1 with
          | b2 :: r2 =>
            if is_cont b2 then
              match r2 with
              | b3 :: r3 =>
                if is_cont b3 then
                  code_units ((b0 - 0xF0) * 262144 + (b1 - 0x80) * 4096
                              + (b2 - 0x80) * 64 + (b3 - 0x80)) ++ decode r3
                else 0xFFFD :: decode r2
              | [] => [0xFFFD]
              end
            else 0xFFFD :: decode r1
          | [] => [0xFFFD]
          end
        else 0xFFFD :: decode r0
      | [] => [0xFFFD]
      end
    else 0xFFFD :: decode r0
  end.

End Utf8.

Module Base64Url.

(** The character (as a code unit) of a 6-bit digit in the URL-safe
    alphabet of RFC 4648: A-Z, a-z, 0-9, '-', '_'. *)
Definition char_of_digit (d : Z) : Z :=
  if d <? 26 then 65 + d
  else if d <? 52 then 97 + (d - 26)
  else if d <? 62 then 48 + (d - 52)
  else if d =? 62 then 45 else 95.

(** Decoding accepts both the URL-safe and the standard alphabet. *)
Definition digit_of_char (c : Z) : option Z :=
  if in_range 65 90 c then Some (c - 65)
  else if in_range 97 122 c then Some (c - 97 + 26)
  else if in_range 48 57 c then Some (c - 48 + 52)
  else if (c =? 45) || (c =? 43) then Some 62
  else if (c =? 95) || (c =? 47) then Some 63
  else None.

Fixpoint digits_of_bytes (bs : list Z) : list Z :=
  match bs with
  | a :: b :: c :: rest =>
    a / 4 :: (a mod 4) * 16 + b / 16 :: (b mod 16) * 4 + c / 64 :: c mod 64
      :: digits_of_bytes rest
  | [a; b] => [a / 4; (a mod 4) * 16 + b / 16; (b mod 16) * 4]
  | [a] => [a / 4; (a mod 4) * 16]
  | [] => []
  end.

Fixpoint bytes_of_digits (ds : list Z) : list Z :=
  match ds with
  | d0 :: d1 :: d2 :: d3 :: rest =>
    d0 * 4 + d1 / 16 :: (d1 mod 16) * 16 + d2 / 4 :: (d2 mod 4) * 64 + d3
      :: bytes_of_digits rest
  | [d0; d1; d2] => [d0 * 4 + d1 / 16; (d1 mod 16) * 16 + d2 / 4]
  | [d0; d1] => [d0 * 4 + d1 / 16]
  | _ => []
  end.

(** [buf.toString('base64url')]: URL-safe alphabet, no padding. *)
Definition encode (bs : list Z) : jsstring :=
  map char_of_digit (digits_of_bytes bs).

(** The characters up to the first '=' (61), each by its low byte, which is
    what the decoder reads of a code unit. *)
Fixpoint until_padding (s : jsstring) : list Z :=
  match s with
  | [] => []
  | c :: rest =>
    if c mod 256 =? 61 then [] else c mod 256 :: until_padding rest
  end.

(** Modelled from the documentation of [Buffer.from(string, 'base64url')]
    and from Node's decoder: it never throws; characters outside the
    alphabet (white space among them) are skipped and decoding stops at the
    padding character. *)
Definition decode (s : jsstring) : list Z :=
  bytes_of_digits (omap digit_of_char (until_padding s)).

End Base64Url.

(** ** AES-256 (FIPS 197)

    Modelled from the standard: [createCipheriv('aes-256-gcm', ...)] is
    OpenSSL's implementation of it, which is not part of the repository. *)
Module Aes.

Definition xor_bytes (xs ys : list Z) : list Z := zip_with Z.lxor xs ys.

(** Multiplication by x in GF(2^8) modulo x^8 + x^4 + x^3 + x + 1. *)
Definition xtime (b : Z) : Z :=
  if 2 * b <? 256 then 2 * b else Z.lxor (2 * b - 256) 0x1b.

Fixpoint gmul_loop (n : nat) (a b acc : Z) : Z :=
  match n with
  | O => acc
  | S n' =>
    gmul_loop n' (xtime a) (b / 2) (if Z.odd b then Z.lxor acc a else acc)
  end.

Definition gmul (a b : Z) : Z := gmul_loop 8 a b 0.

(** The multiplicative inverse in GF(2^8), with 0 mapped to 0. *)
Definition ginv (a : Z) : Z :=
  match find (fun y => gmul a y =? 1) (map Z.of_nat (seq 0 256)) with
  | Some y => y
  | None => 0
  end.

Definition rotl8 (b n : Z) : Z := (b * 2 ^ n) mod 256 + b / 2 ^ (8 - n).

Definition affine (b : Z) : Z :=
  Z.lxor b (Z.lxor (rotl8 b 1) (Z.lxor (rotl8 b 2)
    (Z.lxor (rotl8 b 3) (Z.lxor (rotl8 b 4) 0x63)))).

Definition sbox_table : list Z :=
  Eval vm_compute in map (fun n => affine (ginv (Z.of_nat n))) (seq 0 256).

Definition sbox (b : Z) : Z := nth (Z.to_nat b) sbox_table 0.

Definition sub_bytes (st : list Z) : list Z := map sbox st.

(** The state is stored by columns: byte [r + 4 * c] is row r, column c. *)
Definition shift_rows (st : list Z) : list Z :=
  map (fun i => nth ((i mod 4) + 4 * (((i / 4) + (i mod 4)) mod 4))%nat st 0)
      (seq 0 16).

Definition mix_column (col : list Z) : list Z :=
  match col with
  | [a0; a1; a2; a3] =>
    [Z.lxor (gmul a0 2) (Z.lxor (gmul a1 3) (Z.lxor a2 a3));
     Z.lxor a0 (Z.lxor (gmul a1 2) (Z.lxor (gmul a2 3) a3));
     Z.lxor a0 (Z.lxor a1 (Z.lxor (gmul a2 2) (gmul a3 3)));
     Z.lxor (gmul a0 3) (Z.lxor a1 (Z.lxor a2 (gmul a3 2)))]
  | _ => col
  end.

Definition mix_columns (st : list Z) : list Z :=
  mix_column (take 4 st) ++ mix_column (take 4 (drop 4 st))
    ++ mix_column (take 4 (drop 8 st)) ++ mix_column (take 4 (drop 12 st)).

Definition rot_word (w : list Z) : list Z :=
  match w with
  | a :: rest => rest ++ [a]
  | [] => []
  end.

Fixpoint rcon (n : nat) : Z :=
  match n with
  | O => 0
  | S O => 1
  | S n' => xtime (rcon n')
  end.

(** Key expansion for Nk = 8: [ws] holds the words computed so far, the
    next one has index [i]. *)
Fixpoint expand_loop (n : nat) (i : nat) (ws : list (list Z)) : list (list Z) :=
  match n with
  | O => ws
  | S n' =>
    let prev := nth (i - 1) ws [] in
    let temp :=
      if (i mod 8 =? 0)%nat then
        xor_bytes (map sbox (rot_word prev)) [rcon (i / 8); 0; 0; 0]
      else if (i mod 8 =? 4)%nat then map sbox prev
      else prev in
    expand_loop n' (S i) (ws ++ [xor_bytes (nth (i - 8) ws []) temp])
  end.

Fixpoint words_of (n : nat) (bs : list Z) : list (list Z) :=
  match n with
  | O => []
  | S n' => take 4 bs :: words_of n' (drop 4 bs)
  end.

(** The 15 round keys of a 32-byte key, 16 bytes each. *)
Definition key_schedule (key : list Z) : list (list Z) :=
  let ws := expand_loop 52 8 (words_of 8 key) in
  map (fun r => concat (take 4 (drop (4 * r) ws))) (seq 0 15).

Definition round (st rk : list Z) : list Z :=
  xor_bytes (mix_columns (shift_rows (sub_bytes st))) rk.

Definition final_round (st rk : list Z) : list Z :=
  xor_bytes (shift_rows (sub_bytes st)) rk.

(** Encryption of one 16-byte block under an expanded key. *)
Definition cipher (rks : list (list Z)) (block : list Z) : list Z :=
  match rks with
  | rk0 :: rest =>
    let middle := take 13 rest in
    let last_key := nth 13 rest [] in
    final_round (fold_left round middle (xor_bytes block rk0)) last_key
  | [] => block
  end.

Definition encrypt_block (key block : list Z) : list Z :=
  cipher (key_schedule key) block.

End Aes.

(** ** Galois/Counter Mode (NIST SP 800-38D), no additional data *)
Module Gcm.

(** The value of a block of at most 16 bytes, big-endian, padded with zero
    bytes on the right. *)
Definition block_value (bs : list Z) : Z :=
  fold_left (fun acc i => acc * 256 + nth i bs 0) (seq 0 16) 0.

Definition block_bytes (v : Z) : list Z :=
  map (fun i => (v / 256 ^ (15 - Z.of_nat i)) mod 256) (seq 0 16).

(** A 64-bit length field, big-endian. *)
Definition be64 (n : Z) : list Z :=
  map (fun i => (n / 256 ^ (7 - Z.of_nat i)) mod 256) (seq 0 8).

Definition reduction : Z := 0xE1 * 2 ^ 120.

(** Multiplication in GF(2^128); bit 0 of the standard is the most
    significant bit of the integer. *)
Fixpoint mul_loop (n : nat) (x v z : Z) : Z :=
  match n with
  | O => z
  | S n' =>
    mul_loop n' x
      (if Z.odd v then Z.lxor (v / 2) reduction else v / 2)
      (if Z.testbit x (Z.of_nat n') then Z.lxor z v else z)
  end.

Definition gf128_mul (x y : Z) : Z := mul_loop 128 x y 0.

Definition nblocks (data : list Z) : nat := (length data + 15) / 16.

Fixpoint blocks_of (n : nat) (data : list Z) : list Z :=
  match n with
  | O => []
  | S n' => block_value (take 16 data) :: blocks_of n' (drop 16 data)
  end.

Definition ghash (h : Z) (blocks : list Z) : Z :=
  fold_left (fun x b => gf128_mul (Z.lxor x b) h) blocks 0.

(** Increment of the rightmost 32 bits of a counter block. *)
Definition inc32 (cb : list Z) : list Z :=
  let v := block_value cb in
  block_bytes ((v / 2 ^ 32) * 2 ^ 32 + (v mod 2 ^ 32 + 1) mod 2 ^ 32).

Fixpoint keystream (n : nat) (rks : list (list Z)) (cb : list Z) : list Z :=
  match n with
  | O => []
  | S n' => Aes.cipher rks cb ++ keystream n' rks (inc32 cb)
  end.

Definition gctr (rks : list (list Z)) (icb data : list Z) : list Z :=
  Aes.xor_bytes data (keystream (nblocks data) rks icb).

Definition hash_subkey (rks : list (list Z)) : Z :=
  block_value (Aes.cipher rks (repeat 0 16)).

(** The pre-counter block: the nonce followed by the counter 1 when the
    nonce has 96 bits, a hash of the nonce otherwise. *)
Definition j0 (rks : list (list Z)) (iv : list Z) : list Z :=
  if (length iv =? 12)%nat then iv ++ [0; 0; 0; 1]
  else
    block_bytes (ghash (hash_subkey rks)
      (blocks_of (nblocks iv) iv
         ++ [block_value (be64 0 ++ be64 (8 * Z.of_nat (length iv)))])).

(** The full 16-byte tag of a ciphertext. *)
Definition tag_of (rks : list (list Z)) (iv ct : list Z) : list Z :=
  let s := ghash (hash_subkey rks)
             (blocks_of (nblocks ct) ct
                ++ [block_value (be64 0 ++ be64 (8 * Z.of_nat (length ct)))]) in
  Aes.xor_bytes (block_bytes s) (Aes.cipher rks (j0 rks iv)).

Definition encrypt (key iv pt : list Z) : list Z * list Z :=
  let rks := Aes.key_schedule key in
  let ct := gctr rks (inc32 (j0 rks iv)) pt in
  (ct, tag_of rks iv ct).

(** Decryption checks the supplied tag, which may be a truncated one,
    against the leading bytes of the recomputed tag. *)
Definition decrypt (key iv ct tag : list Z) : option (list Z) :=
  let rks := Aes.key_schedule key in
  if bool_decide (take (length tag) (tag_of rks iv ct) = tag)
  then Some (gctr rks (inc32 (j0 rks iv)) ct)
  else None.

End Gcm.

(** ** JavaScript values *)

(** The errors the helpers and the primitives under them raise. *)
Inductive js_error :=
  | InvalidInput          (* new Error('Invalid input') *)
  | InvalidArgType        (* ERR_INVALID_ARG_TYPE *)
  | InvalidKeyLength      (* ERR_CRYPTO_INVALID_KEYLEN *)
  | InvalidIV             (* ERR_CRYPTO_INVALID_IV *)
  | InvalidAuthTagLength  (* ERR_CRYPTO_INVALID_AUTH_TAG *)
  | AuthenticationFailed  (* Unsupported state or unable to authenticate data *)
  | IncompatibleReceiver  (* TypeError: Promise.prototype.then called on an
                             object that is no promise *)
  | ReadOnlyProperty.     (* TypeError: assignment to a read-only property *)

(** A native promise is described by how it eventually settles, a function
    by what it does when it is called as a [then] method with the two
    resolving functions of a promise.  [VObj] is a plain object, whose
    prototype is [Object.prototype]; [VObjProto] is an object whose
    prototype was replaced by [proto], an object or [null]. *)
#[warnings="-register-all"]
Inductive value :=
  | VUndefined
  | VNull
  | VBool (b : bool)
  | VNum (n : Z)
  | VStr (s : jsstring)
  | VError (e : js_error)
  | VFun (f : then_call)
  | VObj (props : list (string * value))
  | VObjProto (proto : value) (props : list (string * value))
  | VPromise (s : settlement)
with settlement :=
  | Fulfils (v : value)
  | Rejects (reason : value)
  | NeverSettles
with then_call :=
  | CallsResolve (v : value)
  | CallsReject (reason : value)
  | ThrowsValue (reason : value)
  | CallsNothing.

(** The completion of a call: a returned value or a thrown one. *)
Inductive completion (A : Type) :=
  | Return (a : A)
  | Throw (e : value).
Arguments Return {A} a.
Arguments Throw {A} e.

(** [!!v] *)
Definition truthy (v : value) : bool :=
  match v with
  | VUndefined | VNull => false
  | VBool b => b
  | VNum n => negb (n =? 0)
  | VStr s => match s with [] => false | _ => true end
  | _ => true
  end.

Definition is_object (v : value) : bool :=
  match v with
  | VError _ | VFun _ | VObj _ | VObjProto _ _ | VPromise _ => true
  | _ => false
  end.

Fixpoint assoc (k : string) (props : list (string * value)) : option value :=
  match props with
  | [] => None
  | (k', v) :: rest => if String.eqb k' k then Some v else assoc k rest
  end.

(** The [then] an object finds on its prototype chain, from [proto] on.
    Below a native promise it is [Promise.prototype.then], which throws when
    its receiver is no promise; [Object.prototype], [Function.prototype] and
    [Error.prototype] have none. *)
Fixpoint inherited_then (proto : value) : value :=
  match proto with
  | VPromise _ => VFun (ThrowsValue (VError IncompatibleReceiver))
  | VObj props => default VUndefined (assoc "then" props)
  | VObjProto p props =>
    match assoc "then" props with
    | Some t => t
    | None => inherited_then p
    end
  | _ => VUndefined
  end.

(** [obj?.then]: the [then] of a native promise registers reactions, so it
    calls back according to the promise's settlement; primitives, errors and
    functions have none. *)
Definition get_then (obj : value) : value :=
  match obj with
  | VPromise (Fulfils v) => VFun (CallsResolve v)
  | VPromise (Rejects r) => VFun (CallsReject r)
  | VPromise NeverSettles => VFun CallsNothing
  | VObj props => default VUndefined (assoc "then" props)
  | VObjProto p props =>
    match assoc "then" props with
    | Some t => t
    | None => inherited_then p
    end
  | _ => VUndefined
  end.

Definition isPromise (obj : value) : bool := truthy (get_then obj).

Definition is_callable (v : value) : bool :=
  match v with VFun _ => true | _ => false end.

(** How the promise [Promise.resolve(v)] settles (and how a promise
    resolved with [v] does): a native promise keeps its settlement; for any
    other object the [then] found on the object or on its prototype chain is
    called if it is callable; anything else is the fulfilment value. *)
Fixpoint settle_of (v : value) : settlement :=
  match v with
  | VPromise s => s
  | _ =>
    (fix chain (o : value) : settlement :=
       match o with
       | VObj props =>
         (fix follow (ps : list (string * value)) : settlement :=
            match ps with
            | [] => Fulfils v
            | (k, x) :: ps' =>
              if String.eqb k "then" then
                match x with
                | VFun (CallsResolve v') => settle_of v'
                | VFun (CallsReject r) => Rejects r
                | VFun (ThrowsValue r) => Rejects r
                | VFun CallsNothing => NeverSettles
                | _ => Fulfils v
                end
              else follow ps'
            end) props
       | VObjProto p props =>
         (fix follow (ps : list (string * value)) : settlement :=
            match ps with
            | [] => chain p
            | (k, x) :: ps' =>
              if String.eqb k "then" then
                match x with
                | VFun (CallsResolve v') => settle_of v'
                | VFun (CallsReject r) => Rejects r
                | VFun (ThrowsValue r) => Rejects r
                | VFun CallsNothing => NeverSettles
                | _ => Fulfils v
                end
              else follow ps'
            end) props
       | VPromise _ => Rejects (VError IncompatibleReceiver)
       | _ => Fulfils v
       end) v
  end.
(** ** Objects as ordered property lists

    The own properties of an object, in the order [Object.entries] lists
    them: array-index keys in ascending order, then the other keys in
    insertion order. *)
Module Obj.

Definition digit (a : Ascii.ascii) : option N :=
  let n := Ascii.N_of_ascii a in
  if ((48 <=? n) && (n <=? 57))%N then Some (n - 48)%N else None.

Fixpoint digits (s : string) (acc : N) : option N :=
  match s with
  | EmptyString => Some acc
  | String a rest =>
    match digit a with
    | Some d => digits rest (10 * acc + d)%N
    | None => None
    end
  end.

(** The array index a key denotes: a canonical decimal numeral below
    2^32 - 1. *)
Definition array_index (k : string) : option N :=
  match k with
  | EmptyString => None
  | String a rest =>
    if (Ascii.N_of_ascii a =? 48)%N && negb (String.eqb rest "") then None
    else if (String.length k <=? 10)%nat then
      match digits k 0 with
      | Some n => if (n <? 4294967295)%N then Some n else None
      | None => None
      end
    else None
  end.

(** Whether key [k] is listed before key [k']. Only asked with [k] absent
    from the object, so two non-index keys are in insertion order. *)
Definition before (k k' : string) : bool :=
  match array_index k, array_index k' with
  | Some n, Some n' => (n <? n')%N
  | Some _, None => true
  | None, _ => false
  end.


Fixpoint add (k : string) (v : value) (o : list (string * value))
  : list (string * value) :=
  match o with
  | [] => [(k, v)]
  | (k', v') :: rest =>
    if before k k' then (k, v) :: o else (k', v') :: add k v rest
  end.

Fixpoint replace (k : string) (v : value) (o : list (string * value))
  : list (string * value) :=
  match o with
  | [] => []
  | (k', v') :: rest =>
    if String.eqb k' k then (k, v) :: rest else (k', v') :: replace k v rest
  end.

(** An own data property written or created. *)
Definition define (k : string) (v : value) (o : list (string * value))
  : list (string * value) :=
  if bool_decide (is_Some (assoc k o)) then replace k v o else add k v o.

(** Whether an object whose prototype is [proto] inherits the [__proto__]
    accessor of [Object.prototype]: a data property of that name on the way
    hides it, and a [null] prototype ends the chain before it. *)
Fixpoint inherits_accessor (proto : value) : bool :=
  match proto with
  | VObj props => negb (bool_decide (is_Some (assoc "__proto__" props)))
  | VObjProto p props =>
    negb (bool_decide (is_Some (assoc "__proto__" props)))
      && inherits_accessor p
  | VError _ | VFun _ | VPromise _ => true
  | _ => false
  end.

(** Whether an assignment of [k] through an object whose prototype is
    [proto] is refused: a function has the read-only [name] and [length],
    and [arguments] and [caller] throw on it; a writable data property
    found before hides them. *)
Fixpoint read_only (k : string) (proto : value) : bool :=
  match proto with
  | VFun _ =>
    bool_decide (k ∈ ["name"; "length"; "arguments"; "caller"]%string)
  | VObjProto p props =>
    negb (bool_decide (is_Some (assoc k props))) && read_only k p
  | _ => false
  end.

(** [o[k] = v] in strict code, on the object with own properties [o] whose
    prototype is [Object.prototype] ([proto = None]) or was replaced by
    [p] ([proto = Some p]).  Through the inherited [__proto__] accessor an
    object or [null] becomes the prototype and any other value is ignored;
    an own property is overwritten; an inherited read-only property makes
    the assignment throw; otherwise an own property is created.  (The
    accessor also throws on a cyclic chain, which needs [v] to refer to the
    object assigned to.) *)
Definition set (k : string) (v : value) (proto : option value)
    (o : list (string * value))
  : completion (option value * list (string * value)) :=
  let own := bool_decide (is_Some (assoc k o)) in
  if String.eqb k "__proto__" && negb own
     && match proto with Some p => inherits_accessor p | None => true end
  then
    if is_object v || match v with VNull => true | _ => false end
    then Return (Some v, o)
    else Return (proto, o)
  else if negb own
          && match proto with Some p => read_only k p | None => false end
  then Throw (VError ReadOnlyProperty)
  else Return (proto, define k v o).

Definition keys (o : list (string * value)) : list string := map fst o.

End Obj.

(** ** The Node.js primitives the codec calls *)

(** The system's random source: the stream of bytes it has yet to give. *)
Definition entropy := nat -> Z.

(** [randomBytes(n)] *)
Definition randomBytes (n : nat) (e : entropy) : list Z * entropy :=
  (map (fun i => e i mod 256) (seq 0 n), fun i => e (n + i)%nat).

(** The bytes of a string argument of [createCipheriv] and [cipher.update];
    [None] for a value that is no string, which they refuse with a type
    error (the model has no buffers and no key objects). *)
Definition string_bytes (v : value) : option (list Z) :=
  match v with
  | VStr s => Some (Utf8.encode s)
  | _ => None
  end.

(** [buf.subarray(start, end)]: negative indices count from the end, both
    are clamped to the buffer, an empty range gives an empty view. *)
Definition clamp_index (len i : Z) : Z :=
  if i <? 0 then Z.max (len + i) 0 else Z.min i len.

Definition subarray (buf : list Z) (start : Z) (end_ : option Z) : list Z :=
  let len := Z.of_nat (length buf) in
  let s := clamp_index len start in
  let e := clamp_index len (default len end_) in
  take (Z.to_nat (e - s)) (drop (Z.to_nat s) buf).

(** [createCipheriv('aes-256-gcm', key, iv)] and [createDecipheriv]: the key
    must be a string of 32 bytes, the nonce must not be empty.  The result
    is the key's bytes. *)
Definition create_cipher (key : value) (iv : list Z) : completion (list Z) :=
  match string_bytes key with
  | None => Throw (VError InvalidArgType)
  | Some kb =>
    if (length iv =? 0)%nat then Throw (VError InvalidIV)
    else if (length kb =? 32)%nat then Return kb
    else Throw (VError InvalidKeyLength)
  end.

(** The tag lengths [decipher.setAuthTag] accepts for GCM. *)
Definition valid_tag_length (n : nat) : bool :=
  bool_decide (n ∈ [4; 8; 12; 13; 14; 15; 16]%nat).

(** ** The codec *)

(** [aesEncryptData(string, key)], with the random source threaded through. *)
Definition aesEncryptData (string key : value) (e : entropy)
  : completion value * entropy :=
  if negb (truthy string) || negb (truthy key) then (Return VNull, e)
  else
    let (aesIV, e') := randomBytes 12 e in
    match create_cipher key aesIV with
    | Throw err => (Throw err, e')
    | Return kb =>
      match string_bytes string with
      | None => (Throw (VError InvalidArgType), e')
      | Some pt =>
        let (ct, tag) := Gcm.encrypt kb aesIV pt in
        (Return (VStr (Base64Url.encode (aesIV ++ ct ++ tag))), e')
      end
    end.

Section Decode.

(** What [Buffer.from] makes of a plain object, through its [valueOf] and
    its array-like conversion: Node's, and left open here. *)
Variable buffer_from_object : value -> completion (list Z).

(** [Buffer.from(v, 'base64url')]: a string is decoded; a number, a boolean,
    a function, an error or a promise is refused with a type error. *)
Definition buffer_from (v : value) : completion (list Z) :=
  match v with
  | VStr s => Return (Base64Url.decode s)
  | VObj _ | VObjProto _ _ => buffer_from_object v
  | _ => Throw (VError InvalidArgType)
  end.

(** [aesDecryptData(encryptedString, key)] *)
Definition aesDecryptData (encryptedString key : value) : completion value :=
  if negb (truthy encryptedString) || negb (truthy key) then Return VNull
  else
    match buffer_from encryptedString with
    | Throw err => Throw err
    | Return buffer =>
      match create_cipher key (subarray buffer 0 (Some 12)) with
      | Throw err => Throw err
      | Return kb =>
        let tag := subarray buffer (-16) None in
        if valid_tag_length (length tag) then
          match Gcm.decrypt kb (subarray buffer 0 (Some 12))
                  (subarray buffer 12 (Some (-16))) tag with
          | Some pt => Return (VStr (Utf8.decode pt ++ Utf8.decode []))
          | None => Throw (VError AuthenticationFailed)
          end
        else Throw (VError InvalidAuthTagLength)
      end
    end.

End Decode.

(** ** Promises *)

(** [promisify(fn)(...args)]: a promise resolved with what [fn] returns,
    rejected with what it throws. *)
Definition promisify {W : Type} (fn : W -> completion value * W) (w : W)
  : completion value * W :=
  match fn w with
  | (Return response, w') => (Return (VPromise (settle_of response)), w')
  | (Throw err, w') => (Return (VPromise (Rejects err)), w')
  end.

Definition promisifiedAesEncryptData (string key : value) (e : entropy)
  : completion value * entropy :=
  promisify (aesEncryptData string key) e.

Definition promisifiedAesDecryptData
    (buffer_from_object : value -> completion (list Z))
    (encryptedString key : value) (w : unit)
  : completion value * unit :=
  promisify
    (fun w => (aesDecryptData buffer_from_object encryptedString key, w)) w.

Inductive status :=
  | Pending
  | Resolved
  | Rejected (reason : value).

(** The state of one call of [promiseAllRecord]: the variables of the
    executor's closure ([results] by its own properties and its prototype,
    [None] for the [Object.prototype] it starts with), the status of the
    returned promise, the entries whose promise has a [then] reaction
    attached (with how that promise settles), and the arguments the
    transform was called with. *)
Record engine := EngineWith {
  results : list (string * value);
  proto : option value;
  completed : nat;
  total : nat;
  outer : status;
  tasks : list (string * settlement);
  calls : list value
}.

(** A state in which [results] still has the prototype it was created
    with. *)
Definition Engine (results : list (string * value)) (completed total : nat)
    (outer : status) (tasks : list (string * settlement))
    (calls : list value) : engine :=
  EngineWith results None completed total outer tasks calls.

Definition resolve (st : engine) : engine :=
  match outer st with
  | Pending => EngineWith (results st) (proto st) (completed st) (total st)
                          Resolved (tasks st) (calls st)
  | _ => st
  end.

Definition reject (err : value) (st : engine) : engine :=
  match outer st with
  | Pending => EngineWith (results st) (proto st) (completed st) (total st)
                          (Rejected err) (tasks st) (calls st)
  | _ => st
  end.

(** The object [results] as a value. *)
Definition results_object (st : engine) : value :=
  match proto st with
  | None => VObj (results st)
  | Some p => VObjProto p (results st)
  end.

(** How the returned promise settles in state [st].  [resolve(results)]
    passes the object itself, so the promise follows its [then] if that is
    callable.  (A reaction runs once, so nothing is recorded in [results]
    after [resolve] was called.) *)
Definition outcome (st : engine) : settlement :=
  match outer st with
  | Pending => NeverSettles
  | Resolved => settle_of (results_object st)
  | Rejected err => Rejects err
  end.

Section Engine.

Context {W : Type}.

(** A transform: a function of the value that may change the world [W]
    (the random source, for encryption). *)
Definition transform := value -> W -> completion value * W.

Variable functionToCall : option transform.

(** The body of the [forEach] callback up to [.then]: the check, the choice
    of the promise, [Promise.resolve]. *)
Definition launch (entry : string * value) (st : engine) (w : W)
  : completion engine * W :=
  let (key, promiseOrValue) := entry in
  if negb (isPromise promiseOrValue) && negb (bool_decide (is_Some functionToCall))
  then (Throw (VError InvalidInput), w)
  else if isPromise promiseOrValue then
    (Return (EngineWith (results st) (proto st) (completed st) (total st)
               (outer st) (tasks st ++ [(key, settle_of promiseOrValue)])
               (calls st)), w)
  else
    match functionToCall with
    | Some f =>
      match f promiseOrValue w with
      | (Return p, w') =>
        (Return (EngineWith (results st) (proto st) (completed st) (total st)
                   (outer st) (tasks st ++ [(key, settle_of p)])
                   (calls st ++ [promiseOrValue])), w')
      | (Throw err, w') =>
        (Throw err, w')
      end
    | None =>
      (Return (EngineWith (results st) (proto st) (completed st) (total st)
                 (outer st) (tasks st ++ [(key, settle_of VUndefined)])
                 (calls st)), w)
    end.

(** [entries.forEach(...)]: stops at the first entry that throws; the
    state keeps what was launched before it. *)
Fixpoint for_each (entries : list (string * value)) (st : engine) (w : W)
  : option value * engine * W :=
  match entries with
  | [] => (None, st, w)
  | entry :: rest =>
    match launch entry st w with
    | (Return st', w') => for_each rest st' w'
    | (Throw err, w') => (Some err, st, w')
    end
  end.

(** [promiseAllRecord(object, functionToCall)] up to its return, for the
    object whose own enumerable properties [Object.entries] lists as
    [object]: the executor runs synchronously, and what it throws rejects
    the promise. *)
Definition promiseAllRecord (object : list (string * value)) (w : W)
  : engine * W :=
  let entries := object in
  match for_each entries (Engine [] 0 (length entries) Pending [] []) w with
  | (None, st, w') => (st, w')
  | (Some err, st, w') => (reject err st, w')
  end.

(** The completion of the call itself: the function body is
    [return new Promise(...)], and the constructor catches what the executor
    throws, so the caller is handed the promise in every case. *)
Definition promiseAllRecord_call (object : list (string * value)) (w : W)
  : completion engine * W :=
  let (promise, w') := promiseAllRecord object w in (Return promise, w').

End Engine.

(** The [then] reaction of task [i] runs, because that task's promise has
    settled: fulfilment records the result and resolves once every entry is
    counted; rejection, and an assignment that throws, reach the [catch]
    handler. *)
Definition settle_task (st : engine) (i : nat) : engine :=
  match tasks st !! i with
  | Some (key, Fulfils result) =>
    match Obj.set key result (proto st) (results st) with
    | Return (proto', results') =>
      let st' := EngineWith results' proto' (completed st + 1) (total st)
                   (outer st) (tasks st) (calls st) in
      if (completed st' =? total st')%nat then resolve st' else st'
    | Throw err => reject err st
    end
  | Some (key, Rejects err) => reject err st
  | _ => st
  end.

(** A run of the event loop: the tasks whose promise settles, in the order
    their reactions run. *)
Definition run (schedule : list nat) (st : engine) : engine :=
  fold_left settle_task schedule st.

(** A schedule runs each reaction at most once, and only for a task whose
    promise settles. *)
Definition settles (st : engine) (i : nat) : Prop :=
  ∃ key s, tasks st !! i = Some (key, s) ∧ s ≠ NeverSettles.

Definition valid_schedule (st : engine) (schedule : list nat) : Prop :=
  NoDup schedule ∧ Forall (settles st) schedule.

(** The schedule when every task's promise was already settled at launch:
    the reactions are queued in launch order. *)
Definition fifo (st : engine) : list nat := seq 0 (length (tasks st)).

(** ** The bulk helpers *)

Definition bulkAesEncrypt (object : list (string * value)) (key : value)
  (e : entropy) : engine * entropy :=
  let functionToCall := fun value => promisifiedAesEncryptData value key in
  promiseAllRecord (Some functionToCall) object e.

Definition bulkAesDecrypt
    (buffer_from_object : value -> completion (list Z))
    (object : list (string * value)) (key : value)
  : engine * unit :=
  let functionToCall :=
    fun value => promisifiedAesDecryptData buffer_from_object value key in
  promiseAllRecord (Some functionToCall) object tt.

(** ** Vocabulary of the statements *)

(** A key string of 32 bytes, the size AES-256 takes. *)
Definition valid_key (k : jsstring) : Prop :=
  Forall is_code_unit k ∧ length (Utf8.encode k) = 32%nat.


(** The task whose promise fulfils. *)
Definition fulfils (st : engine) (i : nat) : Prop :=
  ∃ key result, tasks st !! i = Some (key, Fulfils result).

(** A field whose value is a string. *)
Definition string_field (entry : string * value) : Prop :=
  ∃ s, entry.2 = VStr s ∧ Forall is_code_unit s.

(** What resolving a promise with [v] does once [v.then] is [t]. *)
Definition call_then (v t : value) : settlement :=
  match t with
  | VFun (CallsResolve v') => settle_of v'
  | VFun (CallsReject r) => Rejects r
  | VFun (ThrowsValue r) => Rejects r
  | VFun CallsNothing => NeverSettles
  | _ => Fulfils v
  end.

(** How the promise awaited for entry [i] settles: as the value itself when
    the value counts as a promise, else as what the transform returns for
    the value, called in the world the launches of the entries before it
    have left. *)
Definition awaited {W : Type} (functionToCall : option transform)
    (object : list (string * value)) (w : W) (i : nat) (key : string)
    (s : settlement) : Prop :=
  ∃ v, object !! i = Some (key, v) ∧
    if isPromise v then s = settle_of v
    else ∃ f st_i w_i p w',
      functionToCall = Some f
      ∧ for_each functionToCall (take i object)
          (Engine [] 0 (length object) Pending [] []) w = (None, st_i, w_i)
      ∧ f v w_i = (Return p, w')
      ∧ s = settle_of p.

(** [aesDecryptData(aesEncryptData(p, k), k)] *)
Definition round_trip (buffer_from_object : value -> completion (list Z))
    (p key : value) (e : entropy) : completion value :=
  match aesEncryptData p key e with
  | (Return blob, _) => aesDecryptData buffer_from_object blob key
  | (Throw err, _) => Throw err
  end.

(** A character of the URL-safe alphabet. *)
Definition url_safe (c : Z) : bool :=
  in_range 65 90 c || in_range 97 122 c || in_range 48 57 c
  || (c =? 45) || (c =? 95).

(** ** Array helpers *)

Section Chunks.

Context {A : Type}.

(** The loop of [splitArrayToChunks] with [i] parts still to cut:
    [arrayCopy.splice(0, n)] removes the first [n] elements of [arrayCopy]
    and returns them, and [n] is [Math.ceil(arrayCopy.length / i)]. *)
Fixpoint split_loop (i : nat) (arrayCopy : list A) (result : list (list A))
  : list (list A) :=
  match i with
  | O => result
  | S i' =>
    let n := ((length arrayCopy + i') / S i')%nat in
    split_loop i' (drop n arrayCopy) (result ++ [take n arrayCopy])
  end.

(** [splitArrayToChunks(array, parts)] for a whole number of parts; for
    zero or a negative number the loop does not run. *)
Definition splitArrayToChunks (array : list A) (parts : Z) : list (list A) :=
  split_loop (Z.to_nat parts) array [].

End Chunks.

(** ** Defaults *)

(** [StringMaybe(str)] is [str || '']. *)
Definition StringMaybe (str : value) : value :=
  if truthy str then str else VStr [].

(** * Verification *)

(** ** Objects *)

Lemma assoc_None_keys k o : assoc k o = None ↔ k ∉ Obj.keys o.
Proof.
  induction o as [|[k' v'] o IH]; simpl.
  - split; [intros _; apply not_elem_of_nil | done].
  - destruct (String.eqb_spec k' k) as [->|Hne].
    + split; [done | intros H; exfalso; apply H; left].
    + rewrite IH, not_elem_of_cons. split; [by intros ?; split | by intros [_ ?]].
Qed.

Lemma assoc_add k v o k' :
  assoc k o = None →
  assoc k' (Obj.add k v o) = if String.eqb k k' then Some v else assoc k' o.
Proof.
  induction o as [|[k1 v1] o IH]; simpl; intros Hk.
  - done.
  - destruct (String.eqb_spec k1 k) as [->|Hne]; [done|].
    destruct (Obj.before k k1); simpl; [done|].
    rewrite IH by done.
    destruct (String.eqb_spec k1 k') as [->|]; [|done].
    by destruct (String.eqb_spec k k') as [->|].
Qed.

Lemma assoc_replace k v o k' :
  is_Some (assoc k o) →
  assoc k' (Obj.replace k v o) = if String.eqb k k' then Some v else assoc k' o.
Proof.
  induction o as [|[k1 v1] o IH]; simpl; intros Hk.
  - by destruct Hk.
  - destruct (String.eqb_spec k1 k) as [->|Hne]; simpl.
    + by destruct (String.eqb k k').
    + rewrite IH by done.
      destruct (String.eqb_spec k1 k') as [->|]; [|done].
      by destruct (String.eqb_spec k k') as [->|].
Qed.

Lemma assoc_define k v o k' :
  assoc k' (Obj.define k v o) = if String.eqb k k' then Some v else assoc k' o.
Proof.
  unfold Obj.define. case_bool_decide as H.
  - by apply assoc_replace.
  - apply assoc_add. by apply eq_None_not_Some.
Qed.

Lemma keys_add k v o : Obj.keys (Obj.add k v o) ≡ₚ k :: Obj.keys o.
Proof.
  induction o as [|[k1 v1] o IH]; simpl; [done|].
  destruct (Obj.before k k1); simpl; [done|].
  rewrite IH. apply Permutation_swap.
Qed.

Lemma keys_replace k v o : Obj.keys (Obj.replace k v o) = Obj.keys o.
Proof.
  induction o as [|[k1 v1] o IH]; simpl; [done|].
  destruct (String.eqb_spec k1 k) as [->|]; simpl; [done|].
  by rewrite IH.
Qed.

Lemma keys_define_fresh k v o :
  k ∉ Obj.keys o → Obj.keys (Obj.define k v o) ≡ₚ k :: Obj.keys o.
Proof.
  intros Hfresh. unfold Obj.define.
  apply assoc_None_keys in Hfresh.
  case_bool_decide as H.
  - rewrite Hfresh in H. by destruct H.
  - apply keys_add.
Qed.

(** An assignment on an object that still has its first prototype: the key
    [__proto__] reaches the accessor, any other key gives an own
    property. *)
Lemma set_plain k v o :
  Obj.set k v None o =
    if String.eqb k "__proto__" && negb (bool_decide (is_Some (assoc k o)))
    then if is_object v || match v with VNull => true | _ => false end
         then Return (Some v, o) else Return (None, o)
    else Return (None, Obj.define k v o).
Proof.
  unfold Obj.set. rewrite andb_true_r, andb_false_r. done.
Qed.

Lemma set_plain_other k v o :
  k ≠ "__proto__" → Obj.set k v None o = Return (None, Obj.define k v o).
Proof.
  intros Hk. rewrite set_plain.
  by destruct (String.eqb_spec k "__proto__").
Qed.

(** ** Resolution *)

Lemma follow_plain (o : value) props :
  (fix follow (ps : list (string * value)) : settlement :=
     match ps with
     | [] => Fulfils o
     | (k, x) :: ps' =>
       if String.eqb k "then" then
         match x with
         | VFun (CallsResolve v') => settle_of v'
         | VFun (CallsReject r) => Rejects r
         | VFun (ThrowsValue r) => Rejects r
         | VFun CallsNothing => NeverSettles
         | _ => Fulfils o
         end
       else follow ps'
     end) props = call_then o (default VUndefined (assoc "then" props)).
Proof.
  induction props as [|[k x] ps IH]; [done|].
  simpl. destruct (String.eqb k "then"); [|exact IH].
  simpl. by destruct x as [| | | | | |[]| | |].
Qed.

Lemma follow_chain (o : value) (rest : settlement) props :
  (fix follow (ps : list (string * value)) : settlement :=
     match ps with
     | [] => rest
     | (k, x) :: ps' =>
       if String.eqb k "then" then
         match x with
         | VFun (CallsResolve v') => settle_of v'
         | VFun (CallsReject r) => Rejects r
         | VFun (ThrowsValue r) => Rejects r
         | VFun CallsNothing => NeverSettles
         | _ => Fulfils o
         end
       else follow ps'
     end) props =
  match assoc "then" props with
  | Some t => call_then o t
  | None => rest
  end.
Proof.
  induction props as [|[k x] ps IH]; [done|].
  simpl. destruct (String.eqb k "then"); [|exact IH].
  by destruct x as [| | | | | |[]| | |].
Qed.

Lemma chain_inherited (o p : value) :
  (fix chain (o' : value) : settlement :=
     match o' with
     | VObj props =>
       (fix follow (ps : list (string * value)) : settlement :=
          match ps with
          | [] => Fulfils o
          | (k, x) :: ps' =>
            if String.eqb k "then" then
              match x with
              | VFun (CallsResolve v') => settle_of v'
              | VFun (CallsReject r) => Rejects r
              | VFun (ThrowsValue r) => Rejects r
              | VFun CallsNothing => NeverSettles
              | _ => Fulfils o
              end
            else follow ps'
          end) props
     | VObjProto p' props =>
       (fix follow (ps : list (string * value)) : settlement :=
          match ps with
          | [] => chain p'
          | (k, x) :: ps' =>
            if String.eqb k "then" then
              match x with
              | VFun (CallsResolve v') => settle_of v'
              | VFun (CallsReject r) => Rejects r
              | VFun (ThrowsValue r) => Rejects r
              | VFun CallsNothing => NeverSettles
              | _ => Fulfils o
              end
            else follow ps'
          end) props
     | VPromise _ => Rejects (VError IncompatibleReceiver)
     | _ => Fulfils o
     end) p = call_then o (inherited_then p).
Proof.
  induction p as [| | | | | | |props|p' IH props|s]; try done.
  - apply follow_plain.
  - rewrite follow_chain. simpl.
    destruct (assoc "then" props); [done | exact IH].
Qed.

(** [Promise.resolve(v)] keeps a native promise, and for any other value
    calls the [then] it finds, if that is callable. *)
Lemma settle_of_eq v :
  settle_of v =
    match v with
    | VPromise s => s
    | _ => call_then v (get_then v)
    end.
Proof.
  destruct v as [| | | | | | |props|p props|s]; try done.
  - apply follow_plain.
  - unfold settle_of. rewrite follow_chain.
    fold settle_of. simpl.
    destruct (assoc "then" props); [done|].
    apply chain_inherited.
Qed.

(** A value without a callable [then] is a fulfilment value. *)
Lemma settle_of_not_callable v :
  match v with VPromise _ => False | _ => True end →
  is_callable (get_then v) = false →
  settle_of v = Fulfils v.
Proof.
  intros Hv Hc. rewrite settle_of_eq.
  destruct v; try done; by destruct (get_then _).
Qed.

(** ** The reactions *)

Lemma resolve_fields st :
  results (resolve st) = results st ∧ proto (resolve st) = proto st
  ∧ completed (resolve st) = completed st
  ∧ total (resolve st) = total st ∧ tasks (resolve st) = tasks st
  ∧ calls (resolve st) = calls st.
Proof. unfold resolve. by destruct (outer st). Qed.

Lemma reject_fields err st :
  results (reject err st) = results st ∧ proto (reject err st) = proto st
  ∧ completed (reject err st) = completed st
  ∧ total (reject err st) = total st ∧ tasks (reject err st) = tasks st
  ∧ calls (reject err st) = calls st.
Proof. unfold reject. by destruct (outer st). Qed.

Lemma settle_task_frame st i :
  total (settle_task st i) = total st ∧ tasks (settle_task st i) = tasks st
  ∧ calls (settle_task st i) = calls st.
Proof.
  unfold settle_task.
  destruct (tasks st !! i) as [[key [result|err|]]|]; simpl; try done.
  - destruct (Obj.set _ _ _ _) as [[proto' results']|err]; simpl.
    + destruct (_ =? _)%nat; [|done].
      match goal with |- context [resolve ?s] =>
        destruct (resolve_fields s) as (_ & _ & _ & -> & -> & ->) end. done.
    + by destruct (reject_fields err st) as (_ & _ & _ & -> & -> & ->).
  - by destruct (reject_fields err st) as (_ & _ & _ & -> & -> & ->).
Qed.

Lemma run_frame schedule st :
  total (run schedule st) = total st ∧ tasks (run schedule st) = tasks st
  ∧ calls (run schedule st) = calls st.
Proof.
  revert st. induction schedule as [|i rest IH]; intros st; simpl; [done|].
  destruct (IH (settle_task st i)) as (-> & -> & ->).
  apply settle_task_frame.
Qed.

Lemma run_snoc schedule i st :
  run (schedule ++ [i]) st = settle_task (run schedule st) i.
Proof. unfold run. by rewrite fold_left_app. Qed.

Lemma run_app pre post st : run (pre ++ post) st = run post (run pre st).
Proof. unfold run. by rewrite fold_left_app. Qed.

(** A settled promise never changes. *)
Lemma resolve_settled st : outer st ≠ Pending → outer (resolve st) = outer st.
Proof. intros H. unfold resolve. by destruct (outer st) eqn:E. Qed.

Lemma reject_settled err st :
  outer st ≠ Pending → outer (reject err st) = outer st.
Proof. intros H. unfold reject. by destruct (outer st) eqn:E. Qed.

Lemma settle_task_settled st i :
  outer st ≠ Pending → outer (settle_task st i) = outer st.
Proof.
  intros H. unfold settle_task.
  destruct (tasks st !! i) as [[key [result|err|]]|]; simpl; try done.
  - destruct (Obj.set _ _ _ _) as [[proto' results']|err].
    + destruct (_ =? _)%nat; [|done]. by rewrite resolve_settled.
    + by apply reject_settled.
  - by apply reject_settled.
Qed.

Lemma run_settled schedule st :
  outer st ≠ Pending → outer (run schedule st) = outer st.
Proof.
  revert st. induction schedule as [|i rest IH]; intros st H; simpl; [done|].
  rewrite IH; rewrite settle_task_settled by done; done.
Qed.

Lemma settle_task_rejects st i key err :
  outer st = Pending → tasks st !! i = Some (key, Rejects err) →
  outer (settle_task st i) = Rejected err.
Proof.
  intros Hp Hi. unfold settle_task. rewrite Hi. unfold reject. by rewrite Hp.
Qed.

(** The reaction of a fulfilled task, when the assignment goes through. *)
Lemma settle_task_fulfils st i key result proto' results' :
  tasks st !! i = Some (key, Fulfils result) →
  Obj.set key result (proto st) (results st) = Return (proto', results') →
  results (settle_task st i) = results'
  ∧ proto (settle_task st i) = proto'
  ∧ completed (settle_task st i) = (completed st + 1)%nat
  ∧ outer (settle_task st i) =
      match outer st with
      | Pending =>
        if (completed st + 1 =? total st)%nat then Resolved else Pending
      | s => s
      end.
Proof.
  intros Hi Hset. unfold settle_task. rewrite Hi, Hset. simpl.
  destruct (_ =? _)%nat; unfold resolve; simpl; by destruct (outer st).
Qed.

(** The keys of the tasks a schedule runs. *)
Lemma task_key_in st i key s :
  tasks st !! i = Some (key, s) → key ∈ (tasks st).*1.
Proof.
  intros Hi.
  apply (list_elem_of_fmap_2 fst _ _ (list_elem_of_lookup_2 _ _ _ Hi)).
Qed.

(** While [results] has its first prototype, only fulfilments are counted
    and they are fewer than [total], the promise stays pending. *)
Lemma run_pending schedule st :
  outer st = Pending → proto st = None → "__proto__" ∉ (tasks st).*1 →
  Forall (fulfils st) schedule →
  (completed st + length schedule < total st)%nat →
  outer (run schedule st) = Pending
  ∧ proto (run schedule st) = None
  ∧ completed (run schedule st) = (completed st + length schedule)%nat.
Proof.
  revert st.
  induction schedule as [|i rest IH]; intros st Hp Hproto Hkeys Hf Hlt; simpl.
  - repeat split; [done..|lia].
  - apply Forall_cons in Hf as [(key & result & Hi) Hf]. simpl in Hlt.
    assert (Hkey : key ≠ "__proto__").
    { intros ->. by apply Hkeys, (task_key_in st i _ (Fulfils result)). }
    destruct (settle_task_fulfils st i key result None
                (Obj.define key result (results st)) Hi)
      as (_ & Hpr & Hc & Ho).
    { rewrite Hproto. by apply set_plain_other. }
    destruct (settle_task_frame st i) as (Ht & Hts & _).
    rewrite Hp in Ho.
    destruct (Nat.eqb_spec (completed st + 1) (total st)); [lia|].
    destruct (IH (settle_task st i)) as (H1 & H2 & H3); try done.
    + by rewrite Hts.
    + eapply Forall_impl; [apply Hf|].
      intros j (k & r & Hj). exists k, r. by rewrite Hts.
    + rewrite Hc, Ht. lia.
    + repeat split; [done..|]. rewrite H3, Hc. lia.
Qed.

(** ** The synchronous phase *)

Section Sync.

Context {W : Type} (f : option (@transform W)).

Lemma launch_Return entry st w st' w' :
  launch f entry st w = (Return st', w') →
  results st' = results st ∧ proto st' = proto st
  ∧ completed st' = completed st
  ∧ total st' = total st ∧ outer st' = outer st
  ∧ (∃ s, tasks st' = tasks st ++ [(entry.1, s)]
          ∧ if isPromise entry.2 then s = settle_of entry.2 ∧ w' = w
            else ∃ g p, f = Some g ∧ g entry.2 w = (Return p, w')
                        ∧ s = settle_of p)
  ∧ calls st' = calls st ++ (if isPromise entry.2 then [] else [entry.2]).
Proof.
  destruct entry as [key v]. unfold launch. simpl.
  destruct (isPromise v) eqn:Hp; simpl.
  - intros [= <- <-]. simpl. rewrite app_nil_r. eauto 10.
  - destruct f as [g|]; simpl; [|done].
    destruct (g v w) as [[p|err] w1] eqn:Hg; [|done].
    intros [= <- <-]. simpl. repeat split; try done.
    exists (settle_of p). split; [done|]. by exists g, p.
Qed.

Lemma launch_promise key v st w :
  isPromise v = true →
  launch f (key, v) st w =
    (Return (EngineWith (results st) (proto st) (completed st) (total st)
               (outer st) (tasks st ++ [(key, settle_of v)]) (calls st)), w).
Proof. intros Hp. unfold launch. by rewrite Hp. Qed.

Lemma for_each_app l1 l2 st w :
  for_each f (l1 ++ l2) st w =
    match for_each f l1 st w with
    | (None, st1, w1) => for_each f l2 st1 w1
    | thrown => thrown
    end.
Proof.
  revert st w. induction l1 as [|entry l1 IH]; intros st w; simpl; [done|].
  destruct (launch f entry st w) as [[st1|err] w1]; [apply IH | done].
Qed.

Lemma for_each_inv entries st w r st' w' :
  for_each f entries st w = (r, st', w') →
  results st' = results st ∧ proto st' = proto st
  ∧ completed st' = completed st
  ∧ total st' = total st ∧ outer st' = outer st
  ∧ ∃ launched new,
      tasks st' = tasks st ++ new ∧ new.*1 = launched.*1
      ∧ calls st' = calls st ++ filter (λ v, isPromise v = false) launched.*2
      ∧ match r with
        | None => launched = entries
        | Some err =>
          ∃ entry rest w0,
            entries = launched ++ entry :: rest
            ∧ launch f entry st' w0 = (Throw err, w')
        end.
Proof.
  revert st w. induction entries as [|entry rest IH]; intros st w; simpl.
  - intros [= <- <- <-]. repeat split; try done.
    exists [], []. simpl. by rewrite !app_nil_r.
  - destruct (launch f entry st w) as [[st1|err] w1] eqn:Hl.
    + intros Hrest.
      apply launch_Return in Hl
        as (Hr & Hpr & Hc & Ht & Ho & (s & Hts & _) & Hcalls).
      apply IH in Hrest
        as (-> & -> & -> & -> & -> & launched & new & H1 & H2 & H3 & H4).
      repeat split; try done.
      exists (entry :: launched), ((entry.1, s) :: new).
      rewrite H1, H3, Hts, Hcalls. rewrite <- !app_assoc. simpl.
      split; [done|]. split; [f_equal; exact H2|]. split.
      * rewrite filter_cons.
        destruct (isPromise entry.2); by case_decide.
      * destruct r as [err|]; [|by subst].
        destruct H4 as (e & rest' & w0 & -> & H4). by exists e, rest', w0.
    + intros [= <- <- <-]. repeat split; try done.
      exists [], []. simpl. rewrite !app_nil_r. repeat split; try done.
      by exists entry, rest, w.
Qed.

(** The task of an entry, when the executor ran to its end: it sits at the
    entry's index, under the entry's key, and holds the settlement of the
    promise [launch] awaits for it. *)
Lemma for_each_lookup object st0 w st w_end i key v :
  for_each f object st0 w = (None, st, w_end) →
  object !! i = Some (key, v) →
  ∃ st_i w_i st' w' s,
    for_each f (take i object) st0 w = (None, st_i, w_i)
    ∧ launch f (key, v) st_i w_i = (Return st', w')
    ∧ tasks st !! (length (tasks st0) + i)%nat = Some (key, s)
    ∧ if isPromise v then s = settle_of v
      else ∃ g p, f = Some g ∧ g v w_i = (Return p, w') ∧ s = settle_of p.
Proof.
  intros Hfe Hi.
  rewrite <- (take_drop_middle object i (key, v) Hi), for_each_app in Hfe.
  destruct (for_each f (take i object) st0 w) as [[[err|] st_i] w_i] eqn:Hpre;
    [done|].
  cbn [for_each] in Hfe.
  destruct (launch f (key, v) st_i w_i) as [[st'|err] w'] eqn:Hl; [|done].
  exists st_i, w_i, st', w'.
  pose proof Hpre as Hpre'.
  apply for_each_inv in Hpre'
    as (_ & _ & _ & _ & _ & l1 & new1 & Ht1 & Hk1 & _ & ->).
  pose proof Hl as Hl'.
  apply launch_Return in Hl'
    as (_ & _ & _ & _ & _ & (s & Ht2 & Hs) & _).
  apply for_each_inv in Hfe
    as (_ & _ & _ & _ & _ & l3 & new3 & Ht3 & _ & _ & _).
  exists s. split; [done|]. split; [done|]. split.
  - rewrite Ht3, Ht2, Ht1.
    assert (Hlen : length new1 = i).
    { rewrite <- (length_fmap fst new1), Hk1, length_fmap, length_take.
      apply lookup_lt_Some in Hi. lia. }
    rewrite <- !app_assoc.
    rewrite lookup_app_r by lia.
    rewrite lookup_app_r by lia.
    replace (length (tasks st0) + i - length (tasks st0) - length new1)%nat
      with 0%nat by lia.
    done.
  - simpl in Hs. destruct (isPromise v); [by destruct Hs | done].
Qed.

(** When the executor did not throw, every entry has a task, under its own
    key and in the order of the entries. *)
Lemma promiseAllRecord_pending object w :
  outer (promiseAllRecord f object w).1 = Pending →
  (∃ st w', for_each f object (Engine [] 0 (length object) Pending [] []) w
            = (None, st, w')
            ∧ promiseAllRecord f object w = (st, w'))
  ∧ (tasks (promiseAllRecord f object w).1).*1 = object.*1
  ∧ total (promiseAllRecord f object w).1
    = length (tasks (promiseAllRecord f object w).1)
  ∧ results (promiseAllRecord f object w).1 = []
  ∧ proto (promiseAllRecord f object w).1 = None
  ∧ completed (promiseAllRecord f object w).1 = 0%nat
  ∧ calls (promiseAllRecord f object w).1
    = filter (λ v, isPromise v = false) object.*2.
Proof.
  unfold promiseAllRecord.
  destruct (for_each _ _ _ _) as [[[err|] st] w'] eqn:Hfe; cbn [fst];
    pose proof Hfe as Hfe';
    apply for_each_inv in Hfe'
      as (Hr & Hpr & Hc & Ht & Ho & launched & new & H1 & H2 & H3 & H4).
  - change (outer st = Pending) in Ho. unfold reject. rewrite Ho. done.
  - subst launched. intros _.
    change (results st = []) in Hr. change (proto st = None) in Hpr.
    change (completed st = 0%nat) in Hc.
    change (total st = length object) in Ht.
    change (tasks st = new) in H1.
    change (calls st = filter (λ v, isPromise v = false) object.*2) in H3.
    subst new. rewrite Ht, H2.
    split; [by exists st, w'|].
    repeat split; try done.
    by rewrite <- (length_fmap fst (tasks st)), H2, length_fmap.
Qed.

(** The executor threw: the promise is rejected with what was thrown when
    [promiseAllRecord] returns. *)
Lemma promiseAllRecord_thrown object w err st w' :
  for_each f object (Engine [] 0 (length object) Pending [] []) w
    = (Some err, st, w') →
  outer (promiseAllRecord f object w).1 = Rejected err.
Proof.
  intros Hfe. unfold promiseAllRecord. rewrite Hfe. simpl.
  apply for_each_inv in Hfe as (_ & _ & _ & _ & Ho & _).
  unfold reject. by rewrite Ho.
Qed.

Lemma promiseAllRecord_outer object w :
  outer (promiseAllRecord f object w).1 ≠ Resolved.
Proof.
  unfold promiseAllRecord.
  destruct (for_each _ _ _ _) as [[[err|] st] w'] eqn:Hfe; simpl;
    apply for_each_inv in Hfe as (_ & _ & _ & _ & Ho & _); simpl in Ho.
  - unfold reject. by rewrite Ho.
  - by rewrite Ho.
Qed.

(** The tasks are the promises awaited for the entries. *)
Lemma tasks_awaited object w i key s :
  outer (promiseAllRecord f object w).1 = Pending →
  tasks (promiseAllRecord f object w).1 !! i = Some (key, s)
  ↔ awaited f object w i key s.
Proof.
  intros Hp.
  destruct (promiseAllRecord_pending object w Hp)
    as ((st & w' & Hfe & Heq) & Hkeys & _).
  rewrite Heq in *. simpl in *.
  split.
  - intros Hi.
    assert (∃ v, object !! i = Some (key, v)) as [v Hv].
    { assert (Hk : object.*1 !! i = Some key).
      { by rewrite <- Hkeys, list_lookup_fmap, Hi. }
      rewrite list_lookup_fmap in Hk.
      destruct (object !! i) as [[k v]|]; [|done].
      simpl in Hk. injection Hk as ->. by exists v. }
    destruct (for_each_lookup object _ w st w' i key v Hfe Hv)
      as (st_i & w_i & st1 & w1 & s' & Hpre & _ & Hs' & Hdesc).
    simpl in Hs'. rewrite Hi in Hs'. injection Hs' as <-.
    exists v. split; [done|].
    destruct (isPromise v); [done|].
    destruct Hdesc as (g & p & Hg & Hgv & Hs).
    by exists g, st_i, w_i, p, w1.
  - intros (v & Hv & Hdesc).
    destruct (for_each_lookup object _ w st w' i key v Hfe Hv)
      as (st_i & w_i & st1 & w1 & s' & Hpre & _ & Hs' & Hdesc').
    simpl in Hs'. rewrite Hs'. do 2 f_equal.
    destruct (isPromise v); [congruence|].
    destruct Hdesc as (g & st_j & w_j & p & w2 & Hg & Hpre' & Hgv & ->).
    destruct Hdesc' as (g' & p' & Hg' & Hgv' & ->).
    congruence.
Qed.

End Sync.

(** ** The engine *)

(** Distinct task indices are fewer than the tasks. *)
Lemma schedule_length (n : nat) (schedule : list nat) :
  NoDup schedule → Forall (λ i, (i < n)%nat) schedule →
  (length schedule <= n)%nat.
Proof.
  intros Hnd Hlt.
  transitivity (length (seq 0 n)); [|by rewrite length_seq].
  apply submseteq_length, NoDup_submseteq; [done|].
  intros i Hi. apply elem_of_seq. rewrite Forall_forall in Hlt.
  specialize (Hlt i Hi). lia.
Qed.

(** C2: with no entries the executor launches nothing and never calls
    [resolve]: whatever the transform, and whatever runs afterwards, the
    promise returned for the empty mapping stays pending for ever. *)
Theorem empty_input_never_settles {W : Type} (f : option transform) (w : W)
    (schedule : list nat) :
  promiseAllRecord f [] w = (Engine [] 0 0 Pending [] [], w)
  ∧ run schedule (promiseAllRecord f [] w).1 = (promiseAllRecord f [] w).1
  ∧ outcome (run schedule (promiseAllRecord f [] w).1) = NeverSettles.
Proof.
  assert (Hrun : run schedule (Engine [] 0 0 Pending [] [])
                 = Engine [] 0 0 Pending [] []).
  { induction schedule as [|i rest IH]; [done|]. simpl. exact IH. }
  split; [done|]. simpl. rewrite Hrun. done.
Qed.

(** The executor throws at the first entry that is no promise when there
    is no transform, or for which the transform itself throws. *)
Lemma executor_throws {W : Type} (f : option transform) pre key v post
    (w : W) err st_pre w_pre w' :
  for_each f pre (Engine [] 0 (length (pre ++ (key, v) :: post)) Pending [] [])
    w = (None, st_pre, w_pre) →
  isPromise v = false →
  (f = None ∧ err = VError InvalidInput ∧ w' = w_pre)
  ∨ (∃ g, f = Some g ∧ g v w_pre = (Throw err, w')) →
  for_each f (pre ++ (key, v) :: post)
    (Engine [] 0 (length (pre ++ (key, v) :: post)) Pending [] []) w
  = (Some err, st_pre, w').
Proof.
  intros Hpre Hv Hthrow. rewrite for_each_app, Hpre.
  cbn [for_each]. unfold launch. rewrite Hv.
  destruct Hthrow as [(-> & -> & ->)|(g & -> & Hg)]; [done|].
  cbn. by rewrite Hg.
Qed.

(** A fulfilled reaction records its result even when the promise is
    already settled. *)
Lemma settle_task_records st i key result :
  tasks st !! i = Some (key, Fulfils result) →
  proto st = None → key ≠ "__proto__" →
  assoc key (results (settle_task st i)) = Some result
  ∧ completed (settle_task st i) = (completed st + 1)%nat.
Proof.
  intros Hi Hproto Hkey.
  destruct (settle_task_fulfils st i key result None
              (Obj.define key result (results st)) Hi) as (-> & _ & -> & _).
  { rewrite Hproto. by apply set_plain_other. }
  split; [|done]. rewrite assoc_define. by rewrite String.eqb_refl.
Qed.

Lemma reject_outcome err st :
  outer st = Pending → outer (reject err st) = Rejected err.
Proof. intros Hp. unfold reject. by rewrite Hp. Qed.

(** C3, as amended: the promise rejects with the first failure that
    occurs, unmodified.  If the executor throws while launching an entry
    (no transform for a value that is no promise, or a transform that
    throws), the promise is rejected with what was thrown whatever settles
    later.  Otherwise, when the reaction of an entry whose awaited promise
    rejected runs while the promise is pending, the promise rejects at once
    with that entry's reason, however many entries are still to settle, and
    nothing that runs later changes the outcome.  For a mapping without an
    own key [__proto__] the promise is indeed pending as long as only
    fulfilled reactions have run, and a reaction that runs after the
    rejection still records its result: nothing is cancelled. *)
Theorem first_failure_wins {W : Type} (f : option transform) object (w : W) :
  (∀ pre key v post err st_pre w_pre w',
     object = pre ++ (key, v) :: post →
     for_each f pre (Engine [] 0 (length object) Pending [] []) w
       = (None, st_pre, w_pre) →
     isPromise v = false →
     (f = None ∧ err = VError InvalidInput ∧ w' = w_pre)
     ∨ (∃ g, f = Some g ∧ g v w_pre = (Throw err, w')) →
     ∀ schedule,
       outcome (run schedule (promiseAllRecord f object w).1) = Rejects err)
  ∧ (∀ pre i post key err,
       outer (run pre (promiseAllRecord f object w).1) = Pending →
       awaited f object w i key (Rejects err) →
       outcome (run (pre ++ [i]) (promiseAllRecord f object w).1)
         = Rejects err
       ∧ outcome (run (pre ++ i :: post) (promiseAllRecord f object w).1)
         = Rejects err)
  ∧ (∀ pre i key err,
       outer (promiseAllRecord f object w).1 = Pending →
       "__proto__" ∉ object.*1 →
       NoDup pre →
       Forall (λ j, ∃ k r, awaited f object w j k (Fulfils r)) pre →
       awaited f object w i key (Rejects err) →
       outer (run pre (promiseAllRecord f object w).1) = Pending
       ∧ ∀ j k r,
           awaited f object w j k (Fulfils r) →
           assoc k (results (settle_task
                      (run (pre ++ [i]) (promiseAllRecord f object w).1) j))
             = Some r
           ∧ completed (settle_task
                 (run (pre ++ [i]) (promiseAllRecord f object w).1) j)
             = S (length pre)).
Proof.
  set (st0 := (promiseAllRecord f object w).1).
  split; [|split].
  - intros pre key v post err st_pre w_pre w' -> Hpre Hv Hthrow schedule.
    pose proof (executor_throws f pre key v post w err st_pre w_pre w'
                  Hpre Hv Hthrow) as Hfe.
    apply promiseAllRecord_thrown in Hfe.
    unfold outcome. rewrite run_settled; subst st0; rewrite Hfe; done.
  - intros pre i post key err Hpre Hi.
    assert (Hp : outer st0 = Pending).
    { destruct (outer st0) eqn:Ho; [done|..];
        rewrite run_settled in Hpre; congruence. }
    apply (tasks_awaited f object w i key _ Hp) in Hi. fold st0 in Hi.
    assert (Hrej : outer (settle_task (run pre st0) i) = Rejected err).
    { eapply settle_task_rejects; [done|].
      destruct (run_frame pre st0) as (_ & -> & _). done. }
    split.
    + unfold outcome. by rewrite run_snoc, Hrej.
    + unfold outcome. rewrite run_app. cbn [run fold_left].
      fold (run post (settle_task (run pre st0) i)).
      rewrite run_settled; rewrite Hrej; done.
  - intros pre i key err Hp Hproto Hnd Hpre Hi.
    destruct (promiseAllRecord_pending f object w Hp)
      as (_ & Hkeys & Ht & Hres & Hpr & Hc & _).
    fold st0 in Hkeys, Ht, Hres, Hpr, Hc.
    apply (tasks_awaited f object w i key _ Hp) in Hi. fold st0 in Hi.
    assert (Hf : Forall (fulfils st0) pre).
    { eapply Forall_impl; [apply Hpre|]. intros j (k & r & Hj).
      apply (tasks_awaited f object w j k _ Hp) in Hj. by exists k, r. }
    assert (Hlen : (length pre < length (tasks st0))%nat).
    { assert (Hnotin : i ∉ pre).
      { intros Hin. rewrite Forall_forall in Hf.
        destruct (Hf i Hin) as (k & r & Hk). congruence. }
      pose proof (schedule_length (length (tasks st0)) (i :: pre)) as Hs.
      simpl in Hs. apply Hs.
      - by apply NoDup_cons.
      - apply Forall_cons. split; [by eapply lookup_lt_Some|].
        eapply Forall_impl; [apply Hf|].
        intros j (k & r & Hj). by eapply lookup_lt_Some. }
    destruct (run_pending pre st0) as (Hpend & Hpr' & Hc'); try done.
    { by rewrite Hkeys. }
    { rewrite Hc, Ht. lia. }
    split; [done|].
    intros j k r Hj.
    apply (tasks_awaited f object w j k _ Hp) in Hj. fold st0 in Hj.
    rewrite run_snoc.
    set (st1 := settle_task (run pre st0) i).
    assert (Hst1 : st1 = reject err (run pre st0)).
    { unfold st1, settle_task.
      destruct (run_frame pre st0) as (_ & -> & _). by rewrite Hi. }
    destruct (reject_fields err (run pre st0))
      as (_ & Hpr1 & Hc1 & _ & Hts1 & _).
    rewrite <- Hst1 in Hpr1, Hc1, Hts1.
    destruct (settle_task_records st1 j k r) as [H1 H2].
    + rewrite Hts1. by destruct (run_frame pre st0) as (_ & -> & _).
    + by rewrite Hpr1.
    + intros ->. apply Hproto. rewrite <- Hkeys.
      by apply (task_key_in st0 j _ (Fulfils r)).
    + split; [done|]. rewrite H2, Hc1, Hc', Hc. lia.
Qed.

Lemma first_failure_wins_witness :
  outcome (run [0%nat]
    (promiseAllRecord (W := unit) None
       [("a"%string, VPromise (Rejects (VStr [98])));
        ("b"%string, VNum 2)] tt).1)
  = Rejects (VError InvalidInput)
  ∧ outcome (run [0; 1; 2]%nat
      (promiseAllRecord (W := unit)
         (Some (λ v w, (Return (VPromise (Rejects v)), w)))
         [("a"%string, VPromise (Fulfils (VNum 1)));
          ("b"%string, VNum 2);
          ("c"%string, VPromise (Fulfils (VNum 3)))] tt).1)
    = Rejects (VNum 2)
  ∧ outer (run [0%nat]
      (promiseAllRecord (W := unit)
         (Some (λ v w, (Return (VPromise (Rejects v)), w)))
         [("a"%string, VPromise (Fulfils (VNum 1)));
          ("b"%string, VNum 2);
          ("c"%string, VPromise (Fulfils (VNum 3)))] tt).1)
    = Pending.
Proof.
  split; [|split].
  - destruct (first_failure_wins (W := unit) None
                [("a"%string, VPromise (Rejects (VStr [98])));
                 ("b"%string, VNum 2)] tt) as (H & _ & _).
    apply (H [("a"%string, VPromise (Rejects (VStr [98])))] "b"%string
             (VNum 2) [] (VError InvalidInput)
             (Engine [] 0 2 Pending [("a"%string, Rejects (VStr [98]))] [])
             tt tt); [reflexivity..|].
    left. repeat split.
  - destruct (first_failure_wins (W := unit)
                (Some (λ v w, (Return (VPromise (Rejects v)), w)))
                [("a"%string, VPromise (Fulfils (VNum 1)));
                 ("b"%string, VNum 2);
                 ("c"%string, VPromise (Fulfils (VNum 3)))] tt)
      as (_ & H & _).
    apply (H [0%nat] 1%nat [2%nat] "b"%string (VNum 2)); [reflexivity|].
    exists (VNum 2). split; [reflexivity|].
    exists (λ v w, (Return (VPromise (Rejects v)), w)),
      (Engine [] 0 3 Pending [("a"%string, Fulfils (VNum 1))] []), tt,
      (VPromise (Rejects (VNum 2))), tt.
    repeat split.
  - destruct (first_failure_wins (W := unit)
                (Some (λ v w, (Return (VPromise (Rejects v)), w)))
                [("a"%string, VPromise (Fulfils (VNum 1)));
                 ("b"%string, VNum 2);
                 ("c"%string, VPromise (Fulfils (VNum 3)))] tt)
      as (_ & _ & H).
    apply (H [0%nat] 1%nat "b"%string (VNum 2)).
    + reflexivity.
    + apply (bool_decide_unpack _). vm_compute. reflexivity.
    + apply NoDup_singleton.
    + apply Forall_singleton. exists "a"%string, (VNum 1), (VPromise (Fulfils (VNum 1))).
      split; reflexivity.
    + exists (VNum 2). split; [reflexivity|].
      exists (λ v w, (Return (VPromise (Rejects v)), w)),
        (Engine [] 0 3 Pending [("a"%string, Fulfils (VNum 1))] []), tt,
        (VPromise (Rejects (VNum 2))), tt.
      repeat split.
Defined.

(** C3 as stated fails when another failure comes first: the promise of
    entry [a] rejects with ['b'], yet the promise returned is rejected
    with the usage error thrown for entry [b]. *)
Lemma fail_fast_counterexample :
  awaited (W := unit) None
    [("a"%string, VPromise (Rejects (VStr [98]))); ("b"%string, VNum 2)] tt
    0 "a" (Rejects (VStr [98]))
  ∧ outcome (run [0%nat]
      (promiseAllRecord (W := unit) None
         [("a"%string, VPromise (Rejects (VStr [98])));
          ("b"%string, VNum 2)] tt).1)
    = Rejects (VError InvalidInput)
  ∧ Rejects (VError InvalidInput) ≠ Rejects (VStr [98]).
Proof.
  split; [|split].
  - exists (VPromise (Rejects (VStr [98]))). split; reflexivity.
  - reflexivity.
  - discriminate.
Qed.

(** C4: [results] is a plain object, so for an own key [__proto__] of the
    input the assignment [results[key] = result] reaches the accessor
    inherited from [Object.prototype] and creates no property: the promise
    resolves, and the resolved mapping has no key at all where the input
    had one.  The result becomes the prototype of the mapping when it is an
    object or [null], and is dropped otherwise. *)
Theorem proto_key_lost (result : value) :
  outer (run [0%nat]
    (promiseAllRecord (W := unit) None
       [("__proto__"%string, VPromise (Fulfils result))] tt).1) = Resolved
  ∧ Obj.keys (results (run [0%nat]
      (promiseAllRecord (W := unit) None
         [("__proto__"%string, VPromise (Fulfils result))] tt).1)) = []
  ∧ [("__proto__"%string, VPromise (Fulfils result))].*1
    = ["__proto__"%string]
  ∧ proto (run [0%nat]
      (promiseAllRecord (W := unit) None
         [("__proto__"%string, VPromise (Fulfils result))] tt).1)
    = if is_object result || match result with VNull => true | _ => false end
      then Some result else None.
Proof.
  assert (Hst : (promiseAllRecord (W := unit) None
                   [("__proto__"%string, VPromise (Fulfils result))] tt).1
                = Engine [] 0 1 Pending
                    [("__proto__"%string, Fulfils result)] []).
  { reflexivity. }
  rewrite Hst. cbn [run fold_left]. unfold settle_task.
  cbn [tasks Engine lookup list_lookup proto results].
  rewrite set_plain. cbn [assoc String.eqb Ascii.eqb Bool.eqb andb negb].
  rewrite bool_decide_eq_false_2 by (by intros [? ?]). cbn [negb].
  by destruct (is_object result || _).
Qed.

Lemma first_not_promise (object : list (string * value)) :
  Exists (λ entry, isPromise entry.2 = false) object →
  ∃ pre entry post,
    object = pre ++ entry :: post
    ∧ Forall (λ entry, isPromise entry.2 = true) pre
    ∧ isPromise entry.2 = false.
Proof.
  induction 1 as [entry rest H|entry rest H IH].
  - by exists [], entry, rest.
  - destruct (isPromise entry.2) eqn:Hp.
    + destruct IH as (pre & e & post & -> & Hpre & He).
      exists (entry :: pre), e, post. repeat split; [|done].
      by apply Forall_cons.
    + by exists [], entry, rest.
Qed.

Lemma for_each_no_transform {W : Type} pre key v post st (w : W) :
  Forall (λ entry, isPromise entry.2 = true) pre →
  isPromise v = false →
  for_each None (pre ++ (key, v) :: post) st w =
    (Some (VError InvalidInput),
     EngineWith (results st) (proto st) (completed st) (total st) (outer st)
       (tasks st ++ map (λ entry, (entry.1, settle_of entry.2)) pre)
       (calls st), w).
Proof.
  intros Hpre Hv. revert st.
  induction pre as [|[k p] pre IH]; intros st; simpl.
  - rewrite Hv. simpl. rewrite app_nil_r. by destruct st.
  - apply Forall_cons in Hpre as [Hp Hpre]. simpl in Hp.
    rewrite Hp. simpl. rewrite IH by done. simpl.
    by rewrite <- app_assoc.
Qed.

(** C7, as amended: without a transform, a mapping with a value that is no
    promise makes the executor throw at the first such entry.  The throw
    does not reach the caller: the call returns normally, and the promise
    it returns is already rejected with the usage error.  Nothing was
    launched for that entry or for the ones after it; whatever settles
    later the outcome stays the usage error; and the reaction of a promise
    launched before it still runs and records its result. *)
Theorem missing_transform {W : Type} (object : list (string * value)) (w : W) :
  Exists (λ entry, isPromise entry.2 = false) object →
  ∃ pre entry post,
    object = pre ++ entry :: post
    ∧ Forall (λ entry, isPromise entry.2 = true) pre
    ∧ isPromise entry.2 = false
    ∧ promiseAllRecord_call None object w =
        (Return (Engine [] 0 (length object) (Rejected (VError InvalidInput))
                   (map (λ entry, (entry.1, settle_of entry.2)) pre) []), w)
    ∧ promiseAllRecord None object w =
        (Engine [] 0 (length object) (Rejected (VError InvalidInput))
           (map (λ entry, (entry.1, settle_of entry.2)) pre) [], w)
    ∧ (∀ schedule,
        outcome (run schedule (promiseAllRecord None object w).1)
          = Rejects (VError InvalidInput))
    ∧ (∀ i key v result,
        pre !! i = Some (key, v) → settle_of v = Fulfils result →
        key ≠ "__proto__" →
        results (settle_task (promiseAllRecord None object w).1 i)
          = [(key, result)]
        ∧ completed (settle_task (promiseAllRecord None object w).1 i)
          = 1%nat).
Proof.
  intros Hex.
  destruct (first_not_promise object Hex)
    as (pre & [key v] & post & -> & Hpre & Hv).
  exists pre, (key, v), post.
  assert (Hst : promiseAllRecord None (pre ++ (key, v) :: post) w =
    (Engine [] 0 (length (pre ++ (key, v) :: post))
       (Rejected (VError InvalidInput))
       (map (λ entry, (entry.1, settle_of entry.2)) pre) [], w)).
  { unfold promiseAllRecord. by rewrite for_each_no_transform. }
  split; [done|]. split; [done|]. split; [done|].
  split; [unfold promiseAllRecord_call; by rewrite Hst|].
  split; [done|]. rewrite Hst. cbn [fst]. split.
  - intros schedule. unfold outcome. by rewrite run_settled.
  - intros i k p result Hi Hp Hk.
    destruct (settle_task_fulfils
      (Engine [] 0 (length (pre ++ (key, v) :: post))
         (Rejected (VError InvalidInput))
         (map (λ entry, (entry.1, settle_of entry.2)) pre) [])
      i k result None [(k, result)]) as (-> & _ & -> & _); [| |done].
    + cbn [tasks Engine]. rewrite list_lookup_fmap, Hi. simpl. by rewrite Hp.
    + cbn [proto results Engine]. by rewrite set_plain_other.
Qed.

Lemma missing_transform_witness :
  ∃ pre entry post,
    [("a"%string, VPromise (Fulfils (VNum 1))); ("b"%string, VNum 2);
     ("c"%string, VPromise NeverSettles)] = pre ++ entry :: post
    ∧ Forall (λ entry, isPromise entry.2 = true) pre
    ∧ isPromise entry.2 = false
    ∧ promiseAllRecord_call None
        [("a"%string, VPromise (Fulfils (VNum 1))); ("b"%string, VNum 2);
         ("c"%string, VPromise NeverSettles)] tt =
        (Return (Engine [] 0 3 (Rejected (VError InvalidInput))
                   (map (λ entry, (entry.1, settle_of entry.2)) pre) []), tt)
    ∧ promiseAllRecord None
        [("a"%string, VPromise (Fulfils (VNum 1))); ("b"%string, VNum 2);
         ("c"%string, VPromise NeverSettles)] tt =
        (Engine [] 0 3 (Rejected (VError InvalidInput))
           (map (λ entry, (entry.1, settle_of entry.2)) pre) [], tt)
    ∧ (∀ schedule,
        outcome (run schedule (promiseAllRecord None
          [("a"%string, VPromise (Fulfils (VNum 1))); ("b"%string, VNum 2);
           ("c"%string, VPromise NeverSettles)] tt).1)
          = Rejects (VError InvalidInput))
    ∧ (∀ i key v result,
        pre !! i = Some (key, v) → settle_of v = Fulfils result →
        key ≠ "__proto__" →
        results (settle_task (promiseAllRecord None
          [("a"%string, VPromise (Fulfils (VNum 1))); ("b"%string, VNum 2);
           ("c"%string, VPromise NeverSettles)] tt).1 i)
          = [(key, result)]
        ∧ completed (settle_task (promiseAllRecord None
          [("a"%string, VPromise (Fulfils (VNum 1))); ("b"%string, VNum 2);
           ("c"%string, VPromise NeverSettles)] tt).1 i)
          = 1%nat).
Proof.
  apply (missing_transform (W := unit)).
  apply Exists_cons_tl, Exists_cons_hd. reflexivity.
Defined.

(** C7 as stated fails on "synchronously": the usage error is thrown
    inside the executor of the promise, so the call completes normally and
    hands back a promise, rejected with the error. *)
Lemma missing_transform_counterexample :
  promiseAllRecord_call (W := unit) None [("b"%string, VNum 2)] tt
  = (Return (Engine [] 0 1 (Rejected (VError InvalidInput)) [] []), tt)
  ∧ ∀ err w,
      promiseAllRecord_call (W := unit) None [("b"%string, VNum 2)] tt
      ≠ (Throw err, w).
Proof. split; [reflexivity | discriminate]. Qed.

(** C9: an object with a truthy [then] that is not callable counts as a
    promise, so the transform is not called for it and the promise awaited
    for it fulfils with the object itself; but under the key [__proto__]
    the assignment [results[key] = result] makes the object the prototype
    of the resolved mapping instead of a property of it: the mapping the
    promise fulfils with has no own key. *)
Theorem thenable_under_proto_key {W : Type} (f : option transform) (w : W)
    props t :
  assoc "then" props = Some t → truthy t = true → is_callable t = false →
  isPromise (VObj props) = true
  ∧ calls (promiseAllRecord f [("__proto__"%string, VObj props)] w).1 = []
  ∧ awaited f [("__proto__"%string, VObj props)] w 0 "__proto__"
      (Fulfils (VObj props))
  ∧ results (run [0%nat]
      (promiseAllRecord f [("__proto__"%string, VObj props)] w).1) = []
  ∧ outcome (run [0%nat]
      (promiseAllRecord f [("__proto__"%string, VObj props)] w).1)
    = Fulfils (VObjProto (VObj props) []).
Proof.
  intros Ht Htruthy Hcallable.
  assert (Hp : isPromise (VObj props) = true).
  { unfold isPromise. simpl. by rewrite Ht. }
  assert (Hs : settle_of (VObj props) = Fulfils (VObj props)).
  { apply settle_of_not_callable; [done|]. simpl. by rewrite Ht. }
  assert (Hst : (promiseAllRecord f [("__proto__"%string, VObj props)] w).1
                = Engine [] 0 1 Pending
                    [("__proto__"%string, Fulfils (VObj props))] []).
  { unfold promiseAllRecord. cbn [for_each].
    rewrite launch_promise by done. rewrite Hs. reflexivity. }
  split; [done|]. rewrite Hst. split; [done|]. split.
  { exists (VObj props). split; [done|]. by rewrite Hp. }
  assert (Hrun : run [0%nat]
            (Engine [] 0 1 Pending
               [("__proto__"%string, Fulfils (VObj props))] [])
          = EngineWith [] (Some (VObj props)) 1 1 Resolved
              [("__proto__"%string, Fulfils (VObj props))] []).
  { reflexivity. }
  rewrite Hrun. split; [done|].
  unfold outcome. cbn [outer results_object proto results].
  rewrite settle_of_eq. cbn [get_then assoc inherited_then]. by rewrite Ht; destruct t.
Qed.

Lemma thenable_under_proto_key_witness :
  outcome (run [0%nat]
    (promiseAllRecord (W := unit) (Some (λ v w, (Return (VNum 0), w)))
       [("__proto__"%string, VObj [("then"%string, VNum 7)])] tt).1)
  = Fulfils (VObjProto (VObj [("then"%string, VNum 7)]) []).
Proof.
  apply (thenable_under_proto_key (W := unit)
           (Some (λ v w, (Return (VNum 0), w))) tt
           [("then"%string, VNum 7)] (VNum 7)); reflexivity.
Defined.

(** ** The codec: absence *)

(** [aesDecryptData] returns [null] for a falsy blob or key only. *)
Lemma decrypt_null (buffer_from_object : value → completion (list Z))
    (blob key : value) :
  aesDecryptData buffer_from_object blob key = Return VNull
  ↔ truthy blob = false ∨ truthy key = false.
Proof.
  unfold aesDecryptData.
  destruct (truthy blob) eqn:Hs, (truthy key) eqn:Hk; cbn [negb orb];
    try (split; [by auto | done]).
  split; [|by intros [?|?]].
  destruct (buffer_from _ _); [|done].
  destruct (create_cipher _ _); [|done].
  destruct (valid_tag_length _); [|done].
  by destruct (Gcm.decrypt _ _ _ _).
Qed.

(** C5: [aesEncryptData] returns [null] exactly when the string or the key
    is falsy, and then it has drawn no random bytes; [aesDecryptData]
    returns [null] exactly when the blob or the key is falsy.  In both the
    [null] is a returned value, not a thrown one. *)
Theorem absence_semantics (buffer_from_object : value → completion (list Z))
    (string key blob : value) (e : entropy) :
  ((aesEncryptData string key e).1 = Return VNull
     ↔ truthy string = false ∨ truthy key = false)
  ∧ (truthy string = false ∨ truthy key = false →
     aesEncryptData string key e = (Return VNull, e))
  ∧ (aesDecryptData buffer_from_object blob key = Return VNull
     ↔ truthy blob = false ∨ truthy key = false).
Proof.
  split; [|split].
  - unfold aesEncryptData.
    destruct (truthy string) eqn:Hs, (truthy key) eqn:Hk; cbn [negb orb fst];
      try (split; [by auto | done]).
    split; [|by intros [?|?]].
    destruct (randomBytes 12 e) as [aesIV e'].
    destruct (create_cipher key aesIV); [|done].
    destruct (string_bytes string); [|done].
    by destruct (Gcm.encrypt _ _ _).
  - unfold aesEncryptData. by intros [->| ->]; rewrite ?orb_true_r.
  - apply decrypt_null.
Qed.

(** ** Bytes *)

Lemma lxor_bound n a b :
  0 <= n → 0 <= a < 2 ^ n → 0 <= b < 2 ^ n → 0 <= Z.lxor a b < 2 ^ n.
Proof.
  intros Hn Ha Hb. split; [apply Z.lxor_nonneg; lia|].
  destruct (Z.eq_dec (Z.lxor a b) 0) as [->|Hne]; [lia|].
  assert (0 < Z.lxor a b) by (pose proof (proj2 (Z.lxor_nonneg a b)); lia).
  assert (Hlog : ∀ x, 0 <= x < 2 ^ n → 0 < n → Z.log2 x < n).
  { intros x Hx Hpos. destruct (Z.eq_dec x 0) as [->|]; [done|].
    apply Z.log2_lt_pow2; lia. }
  assert (0 < n).
  { destruct (Z.eq_dec n 0) as [->|]; [|lia].
    assert (a = 0) as -> by lia. assert (b = 0) as -> by lia. done. }
  apply Z.log2_lt_pow2; [done|].
  pose proof (Z.log2_lxor a b). pose proof (Hlog a). pose proof (Hlog b). lia.
Qed.

Lemma lxor_byte a b : is_byte a → is_byte b → is_byte (Z.lxor a b).
Proof. intros Ha Hb. apply (lxor_bound 8); done. Qed.

Lemma xor_bytes_length xs ys :
  length (Aes.xor_bytes xs ys) = (length xs `min` length ys)%nat.
Proof. apply length_zip_with. Qed.

Lemma xor_bytes_bytes xs ys :
  is_bytes xs → is_bytes ys → is_bytes (Aes.xor_bytes xs ys).
Proof.
  intros Hx. revert ys. induction Hx as [|x xs Hx Hxs IH]; intros ys Hy.
  - apply Forall_nil_2.
  - destruct Hy as [|y ys Hy Hys]; [apply Forall_nil_2|].
    apply Forall_cons. split; [by apply lxor_byte | by apply IH].
Qed.

(** Adding the same key stream twice gives the data back. *)
Lemma xor_bytes_twice xs ks :
  (length xs <= length ks)%nat →
  Aes.xor_bytes (Aes.xor_bytes xs ks) ks = xs.
Proof.
  revert ks. induction xs as [|x xs IH]; intros [|k ks] Hlen; simpl in *;
    try done; [lia|].
  rewrite Z.lxor_assoc, Z.lxor_nilpotent, Z.lxor_0_r.
  unfold Aes.xor_bytes in IH. rewrite IH by lia. done.
Qed.

(** ** Base64url *)

(** Linear arithmetic with division and remainder by constants. *)
Ltac divlia := Z.div_mod_to_equations; lia.

Lemma triples_ind (P : list Z → Prop) :
  P [] → (∀ a, P [a]) → (∀ a b, P [a; b]) →
  (∀ a b c rest, P rest → P (a :: b :: c :: rest)) →
  ∀ bs, P bs.
Proof.
  intros H0 H1 H2 H3.
  assert (H : ∀ bs, P bs ∧ (∀ a, P (a :: bs)) ∧ ∀ a b, P (a :: b :: bs)).
  { induction bs as [|c bs (IH0 & IH1 & IH2)]; [done|].
    repeat split; [done..|]. intros a b. by apply H3. }
  intros bs. apply H.
Qed.

Lemma digit_of_char_of_digit d :
  0 <= d < 64 → Base64Url.digit_of_char (Base64Url.char_of_digit d) = Some d.
Proof.
  intros Hd. unfold Base64Url.char_of_digit.
  repeat match goal with
  | |- context [?a <? ?b] => destruct (Z.ltb_spec a b)
  | |- context [?a =? ?b] => destruct (Z.eqb_spec a b)
  end; try lia;
  unfold Base64Url.digit_of_char, in_range;
  repeat (match goal with
  | |- context [?a <=? ?b] => destruct (Z.leb_spec a b)
  | |- context [?a =? ?b] => destruct (Z.eqb_spec a b)
  end; try lia; cbn [andb orb]); f_equal; lia.
Qed.

Lemma char_of_digit_range d :
  0 <= d < 64 →
  0 <= Base64Url.char_of_digit d < 128 ∧ Base64Url.char_of_digit d ≠ 61.
Proof.
  intros Hd. unfold Base64Url.char_of_digit.
  repeat match goal with
  | |- context [?a <? ?b] => destruct (Z.ltb_spec a b)
  | |- context [?a =? ?b] => destruct (Z.eqb_spec a b)
  end; lia.
Qed.

Lemma digits_of_bytes_range bs :
  is_bytes bs → Forall (λ d, 0 <= d < 64) (Base64Url.digits_of_bytes bs).
Proof.
  unfold is_bytes, is_byte.
  induction bs as [|a|a b|a b c rest IH] using triples_ind; intros H; simpl.
  - done.
  - apply Forall_cons in H as [Ha _].
    repeat apply Forall_cons_2; [| |done]; cbv beta; divlia.
  - apply Forall_cons in H as [Ha [Hb _]%Forall_cons].
    repeat apply Forall_cons_2; [| | |done]; cbv beta; divlia.
  - apply Forall_cons in H as [Ha [Hb [Hc H]%Forall_cons]%Forall_cons].
    repeat apply Forall_cons_2; [cbv beta; divlia..|by apply IH].
Qed.

Lemma bytes_of_digits_of_bytes bs :
  is_bytes bs → Base64Url.bytes_of_digits (Base64Url.digits_of_bytes bs) = bs.
Proof.
  unfold is_bytes, is_byte.
  induction bs as [|a|a b|a b c rest IH] using triples_ind; intros H.
  - done.
  - apply Forall_cons in H as [Ha _]. simpl. f_equal. divlia.
  - apply Forall_cons in H as [Ha [Hb _]%Forall_cons].
    simpl. repeat f_equal; divlia.
  - apply Forall_cons in H as [Ha [Hb [Hc H]%Forall_cons]%Forall_cons].
    cbn [Base64Url.digits_of_bytes Base64Url.bytes_of_digits].
    rewrite IH by done. repeat f_equal; divlia.
Qed.

Lemma decode_chars ds :
  Forall (λ d, 0 <= d < 64) ds →
  omap Base64Url.digit_of_char
    (Base64Url.until_padding (map Base64Url.char_of_digit ds)) = ds.
Proof.
  induction 1 as [|d ds Hd Hds IH]; [done|].
  cbn [map Base64Url.until_padding].
  destruct (char_of_digit_range d Hd) as [Hrange Hpad].
  rewrite Z.mod_small by lia.
  destruct (Z.eqb_spec (Base64Url.char_of_digit d) 61); [done|].
  cbn -[Base64Url.digit_of_char Base64Url.char_of_digit].
  rewrite digit_of_char_of_digit by done. f_equal. exact IH.
Qed.

(** Decoding what [toString('base64url')] wrote gives the buffer back. *)
Lemma base64url_decode_encode bs :
  is_bytes bs → Base64Url.decode (Base64Url.encode bs) = bs.
Proof.
  intros H. unfold Base64Url.decode, Base64Url.encode.
  rewrite decode_chars by by apply digits_of_bytes_range.
  by apply bytes_of_digits_of_bytes.
Qed.

Lemma encode_nonempty bs : bs ≠ [] → Base64Url.encode bs ≠ [].
Proof.
  unfold Base64Url.encode.
  by destruct bs as [|a [|b [|c rest]]].
Qed.

(** ** AES: the shape of a block *)

Lemma nth_Forall {A} (P : A → Prop) (l : list A) (i : nat) (d : A) :
  Forall P l → P d → P (nth i l d).
Proof.
  intros Hl Hd. revert i. induction Hl as [|x l Hx Hl IH]; intros [|i]; simpl;
    auto.
Qed.

Lemma sbox_byte b : is_byte (Aes.sbox b).
Proof.
  unfold Aes.sbox. apply nth_Forall; [|done].
  apply Forall_forall. intros x Hx.
  assert (H : forallb (λ x, (0 <=? x) && (x <? 256)) Aes.sbox_table = true)
    by (vm_compute; reflexivity).
  rewrite forallb_forall in H. apply list_elem_of_In in Hx.
  specialize (H x Hx). unfold is_byte. lia.
Qed.

Lemma sub_bytes_bytes st : is_bytes (Aes.sub_bytes st).
Proof.
  unfold Aes.sub_bytes. induction st; simpl; [apply Forall_nil_2|].
  apply Forall_cons. split; [apply sbox_byte | done].
Qed.

Lemma shift_rows_length st : length (Aes.shift_rows st) = 16%nat.
Proof. reflexivity. Qed.

Lemma shift_rows_bytes st : is_bytes st → is_bytes (Aes.shift_rows st).
Proof.
  intros Hst. unfold Aes.shift_rows.
  apply Forall_forall. intros x (i & -> & _)%list_elem_of_fmap.
  by apply nth_Forall.
Qed.

Lemma xtime_byte b : is_byte b → is_byte (Aes.xtime b).
Proof.
  intros Hb. unfold Aes.xtime. unfold is_byte in Hb.
  destruct (Z.ltb_spec (2 * b) 256); [unfold is_byte; lia|].
  apply lxor_byte; unfold is_byte; lia.
Qed.

Lemma rcon_byte n : is_byte (Aes.rcon n).
Proof.
  induction n as [|[|n] IH]; [done..|].
  change (is_byte (Aes.xtime (Aes.rcon (S n)))). by apply xtime_byte.
Qed.

(** A word of the key schedule: four bytes. *)
Lemma expand_loop_words n i ws :
  Forall (λ w, length w = 4%nat ∧ is_bytes w) ws →
  length ws = i → (8 <= i)%nat →
  Forall (λ w, length w = 4%nat ∧ is_bytes w) (Aes.expand_loop n i ws)
  ∧ length (Aes.expand_loop n i ws) = (i + n)%nat.
Proof.
  revert i ws. induction n as [|n IH]; intros i ws Hws Hlen Hi.
  - simpl. split; [done | lia].
  - cbn [Aes.expand_loop].
    assert (Hnth : ∀ j, (j < i)%nat →
      length (nth j ws []) = 4%nat ∧ is_bytes (nth j ws [])).
    { intros j Hj. rewrite Forall_forall in Hws. apply Hws.
      apply list_elem_of_In, nth_In. lia. }
    destruct (Hnth (i - 1)%nat) as [Hp1 Hp2]; [lia|].
    destruct (Hnth (i - 8)%nat) as [Hq1 Hq2]; [lia|].
    set (prev := nth (i - 1) ws []) in *.
    assert (Htemp : ∀ temp, length temp = 4%nat → is_bytes temp →
      length (Aes.xor_bytes (nth (i - 8) ws []) temp) = 4%nat
      ∧ is_bytes (Aes.xor_bytes (nth (i - 8) ws []) temp)).
    { intros temp Ht1 Ht2. split.
      - rewrite xor_bytes_length, Hq1, Ht1. done.
      - by apply xor_bytes_bytes. }
    assert (Hsub : ∀ w, length w = 4%nat →
      length (map Aes.sbox w) = 4%nat ∧ is_bytes (map Aes.sbox w)).
    { intros w Hw. split; [by rewrite length_map|]. apply sub_bytes_bytes. }
    assert (Hrot : length (Aes.rot_word prev) = 4%nat).
    { destruct prev as [|a rest]; [done|]. simpl in *.
      rewrite length_app. simpl. lia. }
    destruct (IH (S i) (ws ++ [Aes.xor_bytes (nth (i - 8) ws [])
      (if (i mod 8 =? 0)%nat
       then Aes.xor_bytes (map Aes.sbox (Aes.rot_word prev))
              [Aes.rcon (i / 8); 0; 0; 0]
       else if (i mod 8 =? 4)%nat then map Aes.sbox prev else prev)]))
      as [H1 H2].
    + apply Forall_app. split; [done|]. apply Forall_singleton.
      destruct (i mod 8 =? 0)%nat; [|destruct (i mod 8 =? 4)%nat].
      * destruct (Hsub (Aes.rot_word prev) Hrot) as [Hs1 Hs2].
        apply Htemp.
        -- rewrite xor_bytes_length, Hs1. done.
        -- apply xor_bytes_bytes; [done|].
           repeat apply Forall_cons_2; [apply rcon_byte|done..|apply Forall_nil_2].
      * destruct (Hsub prev Hp1). by apply Htemp.
      * by apply Htemp.
    + rewrite length_app. simpl. lia.
    + lia.
    + split; [done|]. rewrite H2. lia.
Qed.

Lemma words_of_words n bs :
  is_bytes bs → length bs = (4 * n)%nat →
  Forall (λ w, length w = 4%nat ∧ is_bytes w) (Aes.words_of n bs)
  ∧ length (Aes.words_of n bs) = n.
Proof.
  revert bs. induction n as [|n IH]; intros bs Hb Hlen; simpl.
  - split; [apply Forall_nil_2 | done].
  - destruct (IH (drop 4 bs)) as [H1 H2].
    + by apply Forall_drop.
    + rewrite length_drop. lia.
    + split; [|by rewrite H2].
      apply Forall_cons. split; [|done]. split.
      * rewrite length_take. lia.
      * by apply Forall_take.
Qed.

Lemma concat_words (ws : list (list Z)) :
  Forall (λ w, length w = 4%nat ∧ is_bytes w) ws →
  length (concat ws) = (4 * length ws)%nat ∧ is_bytes (concat ws).
Proof.
  induction 1 as [|w ws [Hw1 Hw2] Hws [IH1 IH2]]; simpl.
  - split; [done | apply Forall_nil_2].
  - split; [rewrite length_app; lia | by apply Forall_app].
Qed.

Lemma cipher_unfold (g : nat → list Z) block :
  Aes.cipher (map g (seq 0 15)) block =
    Aes.final_round
      (fold_left Aes.round (map g (seq 1 13)) (Aes.xor_bytes block (g 0%nat)))
      (g 14%nat).
Proof. reflexivity. Qed.

(** Under a key of 32 bytes the cipher gives a block of 16 bytes. *)
Lemma cipher_block key block :
  is_bytes key → length key = 32%nat →
  length (Aes.cipher (Aes.key_schedule key) block) = 16%nat
  ∧ is_bytes (Aes.cipher (Aes.key_schedule key) block).
Proof.
  intros Hb Hlen. unfold Aes.key_schedule.
  destruct (words_of_words 8 key Hb) as [Hw1 Hw2]; [lia|].
  destruct (expand_loop_words 52 8 (Aes.words_of 8 key) Hw1 Hw2) as [He1 He2];
    [lia|].
  set (ws := Aes.expand_loop 52 8 (Aes.words_of 8 key)) in *.
  cbv zeta.
  rewrite (cipher_unfold (λ r, concat (take 4 (drop (4 * r) ws)))).
  destruct (concat_words (take 4 (drop (4 * 14) ws))) as [Hk1 Hk2].
  { by apply Forall_take, Forall_drop. }
  rewrite length_take, length_drop, He2 in Hk1.
  unfold Aes.final_round. split.
  - rewrite xor_bytes_length, shift_rows_length, Hk1. lia.
  - apply xor_bytes_bytes; [|done].
    apply shift_rows_bytes, sub_bytes_bytes.
Qed.

(** ** GCM: lengths and the counter mode round trip *)

Section Gcm_facts.

Variable rks : list (list Z).
Hypothesis cipher_16 : ∀ cb, length (Aes.cipher rks cb) = 16%nat.
Hypothesis cipher_bytes : ∀ cb, is_bytes (Aes.cipher rks cb).

Lemma keystream_length n cb :
  length (Gcm.keystream n rks cb) = (16 * n)%nat.
Proof.
  revert cb. induction n as [|n IH]; intros cb; simpl; [done|].
  rewrite length_app, cipher_16, IH. lia.
Qed.

Lemma keystream_bytes n cb : is_bytes (Gcm.keystream n rks cb).
Proof.
  revert cb. induction n as [|n IH]; intros cb; simpl; [apply Forall_nil_2|].
  apply Forall_app. split; [apply cipher_bytes | apply IH].
Qed.

Lemma nblocks_covers data : (length data <= 16 * Gcm.nblocks data)%nat.
Proof.
  unfold Gcm.nblocks.
  pose proof (Nat.div_mod (length data + 15) 16). 
  pose proof (Nat.mod_upper_bound (length data + 15) 16). lia.
Qed.

Lemma gctr_length icb data : length (Gcm.gctr rks icb data) = length data.
Proof.
  unfold Gcm.gctr. rewrite xor_bytes_length, keystream_length.
  pose proof (nblocks_covers data). lia.
Qed.

Lemma gctr_bytes icb data : is_bytes data → is_bytes (Gcm.gctr rks icb data).
Proof.
  intros Hd. unfold Gcm.gctr. apply xor_bytes_bytes; [done|].
  apply keystream_bytes.
Qed.

(** Counter mode is its own inverse. *)
Lemma gctr_twice icb data : Gcm.gctr rks icb (Gcm.gctr rks icb data) = data.
Proof.
  assert (Hn : Gcm.nblocks (Gcm.gctr rks icb data) = Gcm.nblocks data).
  { unfold Gcm.nblocks. by rewrite gctr_length. }
  unfold Gcm.gctr at 1. rewrite Hn. unfold Gcm.gctr.
  apply xor_bytes_twice. rewrite keystream_length. apply nblocks_covers.
Qed.

Lemma block_bytes_length v : length (Gcm.block_bytes v) = 16%nat.
Proof. reflexivity. Qed.

Lemma block_bytes_bytes v : is_bytes (Gcm.block_bytes v).
Proof.
  unfold Gcm.block_bytes. apply Forall_forall.
  intros x (i & -> & _)%list_elem_of_fmap. unfold is_byte.
  apply Z.mod_pos_bound. lia.
Qed.

Lemma tag_of_length iv ct : length (Gcm.tag_of rks iv ct) = 16%nat.
Proof.
  unfold Gcm.tag_of. cbv zeta.
  by rewrite xor_bytes_length, block_bytes_length, cipher_16.
Qed.

Lemma tag_of_bytes iv ct : is_bytes (Gcm.tag_of rks iv ct).
Proof.
  unfold Gcm.tag_of. cbv zeta.
  apply xor_bytes_bytes; [apply block_bytes_bytes | apply cipher_bytes].
Qed.

End Gcm_facts.

(** Decryption of what encryption gave, with its tag, returns the
    plaintext. *)
Lemma gcm_decrypt_encrypt key iv pt :
  is_bytes key → length key = 32%nat →
  Gcm.decrypt key iv (Gcm.encrypt key iv pt).1 (Gcm.encrypt key iv pt).2
  = Some pt.
Proof.
  intros Hb Hlen. unfold Gcm.decrypt, Gcm.encrypt. cbv zeta. cbn [fst snd].
  set (rks := Aes.key_schedule key).
  assert (H16 : ∀ cb, length (Aes.cipher rks cb) = 16%nat).
  { intros cb. by apply cipher_block. }
  rewrite take_ge by (rewrite !tag_of_length by done; lia).
  rewrite bool_decide_eq_true_2 by done.
  by rewrite gctr_twice.
Qed.

(** The model against the standards' own examples: FIPS 197, appendix C.3,
    and the test cases 13 and 14 of the GCM specification. *)
Lemma aes256_fips197_example :
  Aes.encrypt_block (map Z.of_nat (seq 0 32))
    [0x00; 0x11; 0x22; 0x33; 0x44; 0x55; 0x66; 0x77;
     0x88; 0x99; 0xaa; 0xbb; 0xcc; 0xdd; 0xee; 0xff]
  = [0x8e; 0xa2; 0xb7; 0xca; 0x51; 0x67; 0x45; 0xbf;
     0xea; 0xfc; 0x49; 0x90; 0x4b; 0x49; 0x60; 0x89].
Proof. vm_compute. reflexivity. Qed.

Lemma gcm_test_case_13 :
  Gcm.encrypt (repeat 0 32) (repeat 0 12) []
  = ([], [0x53; 0x0f; 0x8a; 0xfb; 0xc7; 0x45; 0x36; 0xb9;
          0xa9; 0x63; 0xb4; 0xf1; 0xc4; 0xcb; 0x73; 0x8b]).
Proof. vm_compute. reflexivity. Qed.

Lemma gcm_test_case_14 :
  Gcm.encrypt (repeat 0 32) (repeat 0 12) (repeat 0 16)
  = ([0xce; 0xa7; 0x40; 0x3d; 0x4d; 0x60; 0x6b; 0x6e;
      0x07; 0x4e; 0xc5; 0xd3; 0xba; 0xf3; 0x9d; 0x18],
     [0xd0; 0xd1; 0xc8; 0xa7; 0x99; 0x99; 0x6b; 0xf0;
      0x26; 0x5b; 0x98; 0xb5; 0xd4; 0x8a; 0xb9; 0x19]).
Proof. vm_compute. reflexivity. Qed.

(** ** Buffers *)

Lemma randomBytes_length n e : length (randomBytes n e).1 = n.
Proof. unfold randomBytes. simpl. by rewrite length_map, length_seq. Qed.

Lemma randomBytes_bytes n e : is_bytes (randomBytes n e).1.
Proof.
  unfold randomBytes. simpl. apply Forall_forall.
  intros x (i & -> & _)%list_elem_of_fmap. unfold is_byte.
  apply Z.mod_pos_bound. lia.
Qed.

(** The three views [aesDecryptData] takes of a blob. *)
Lemma subarray_views iv ct tag :
  length iv = 12%nat → length tag = 16%nat →
  subarray (iv ++ ct ++ tag) 0 (Some 12) = iv
  ∧ subarray (iv ++ ct ++ tag) (-16) None = tag
  ∧ subarray (iv ++ ct ++ tag) 12 (Some (-16)) = ct.
Proof.
  intros Hiv Htag. unfold subarray, clamp_index. simpl default.
  rewrite !length_app, Hiv, Htag.
  set (n := length ct).
  replace (Z.of_nat (12 + (n + 16))) with (Z.of_nat n + 28) by lia.
  repeat match goal with
  | |- context [?a <? ?b] => destruct (Z.ltb_spec a b); try lia
  end.
  rewrite !Z.min_l, Z.max_l by lia.
  replace (Z.to_nat (12 - 0)) with (length iv) by lia.
  replace (Z.to_nat 0) with 0%nat by lia.
  replace (Z.to_nat (Z.of_nat n + 28 - (Z.of_nat n + 28 + -16)))
    with (length tag) by lia.
  replace (Z.to_nat (Z.of_nat n + 28 + -16)) with (length (iv ++ ct))
    by (rewrite length_app; lia).
  replace (Z.to_nat (Z.of_nat n + 28 + -16 - 12)) with (length ct) by lia.
  replace (Z.to_nat 12) with (length iv) by lia.
  repeat split.
  - by rewrite drop_0, take_app_length.
  - rewrite app_assoc, drop_app_length. by rewrite take_ge.
  - rewrite drop_app_length. by rewrite take_app_length.
Qed.

(** ** UTF-8 *)

Lemma pairs_ind (P : list Z → Prop) :
  P [] →
  (∀ u rest, P rest → (∀ l rest', rest = l :: rest' → P rest') →
             P (u :: rest)) →
  ∀ s, P s.
Proof.
  intros Hnil Hcons.
  assert (H : ∀ s, P s ∧ ∀ l rest', s = l :: rest' → P rest').
  { induction s as [|u s [IH1 IH2]]; [by split|].
    split; [by apply Hcons|]. by intros l rest' [= -> ->]. }
  intros s. apply H.
Qed.

(** Case analysis on comparisons, closing the impossible branches. *)
Ltac compare_cases :=
  repeat (match goal with
          | |- context [?a =? ?b] => destruct (Z.eqb_spec a b)
          | |- context [?a <=? ?b] => destruct (Z.leb_spec a b)
          | |- context [?a <? ?b] => destruct (Z.ltb_spec a b)
          end; try (exfalso; divlia); cbn [andb orb negb]).

(** Comparisons whose outcome the context settles, rewritten to it. *)
Ltac decide_comparisons :=
  repeat (match goal with
          | |- context [?a =? ?b] =>
            first [ rewrite (proj2 (Z.eqb_eq a b)) by lia
                  | rewrite (proj2 (Z.eqb_neq a b)) by lia
                  | destruct (Z.eqb_spec a b) ]
          | |- context [?a <=? ?b] =>
            first [ rewrite (proj2 (Z.leb_le a b)) by lia
                  | rewrite (proj2 (Z.leb_gt a b)) by lia ]
          | |- context [?a <? ?b] =>
            first [ rewrite (proj2 (Z.ltb_lt a b)) by lia
                  | rewrite (proj2 (Z.ltb_ge a b)) by lia ]
          end; cbn [andb orb negb]).

Lemma encode_code_point_bytes cp :
  0 <= cp < 0x110000 → is_bytes (Utf8.encode_code_point cp).
Proof.
  intros Hcp. unfold Utf8.encode_code_point, is_bytes, is_byte.
  compare_cases; repeat apply Forall_cons_2; try apply Forall_nil_2; divlia.
Qed.

Lemma replacement_bytes : is_bytes Utf8.replacement.
Proof. unfold Utf8.replacement, is_bytes, is_byte. repeat constructor; lia. Qed.

Lemma encode_bytes s : Forall is_code_unit s → is_bytes (Utf8.encode s).
Proof.
  induction s as [|u rest IH IH'] using pairs_ind; intros Hs.
  - apply Forall_nil_2.
  - apply Forall_cons in Hs as [Hu Hrest]. unfold is_code_unit in Hu.
    cbn [Utf8.encode].
    destruct (is_high_surrogate u) eqn:Hhigh.
    + destruct rest as [|l rest']; [apply replacement_bytes|].
      apply Forall_cons in Hrest as [Hl Hrest']. unfold is_code_unit in Hl.
      destruct (is_low_surrogate l) eqn:Hlow.
      * apply Forall_app. split; [|by apply (IH' l rest')].
        apply encode_code_point_bytes.
        unfold is_high_surrogate, is_low_surrogate, in_range in *. lia.
      * apply Forall_app. split; [apply replacement_bytes|].
        apply IH. by apply Forall_cons.
    + destruct (is_low_surrogate u).
      * apply Forall_app. split; [apply replacement_bytes | by apply IH].
      * apply Forall_app. split; [|by apply IH].
        apply encode_code_point_bytes. lia.
Qed.

Lemma encode_nonempty_utf8 s : s ≠ [] → Utf8.encode s ≠ [].
Proof.
  destruct s as [|u rest]; [done|]. intros _. cbn [Utf8.encode].
  assert (Hcp : ∀ cp l, Utf8.encode_code_point cp ++ l ≠ []).
  { intros cp l. unfold Utf8.encode_code_point.
    by destruct (cp <? 128), (cp <? 2048), (cp <? 65536). }
  destruct (is_high_surrogate u).
  - destruct rest as [|l rest']; [done|].
    destruct (is_low_surrogate l); [apply Hcp | done].
  - destruct (is_low_surrogate u); [done | apply Hcp].
Qed.

(** Decoding the UTF-8 of one code point that is no surrogate. *)
Lemma decode_code_unit u bs :
  0 <= u < 0x10000 → is_high_surrogate u = false →
  is_low_surrogate u = false →
  Utf8.decode (Utf8.encode_code_point u ++ bs) = u :: Utf8.decode bs.
Proof.
  unfold is_high_surrogate, is_low_surrogate, in_range.
  intros Hu Hhigh Hlow.
  assert (Hns : u < 0xD800 ∨ 0xDFFF < u) by lia. clear Hhigh Hlow.
  unfold Utf8.encode_code_point.
  destruct (Z.ltb_spec u 0x80).
  { cbn [app Utf8.decode]. unfold in_range. by compare_cases. }
  destruct (Z.ltb_spec u 0x800).
  { set (b0 := 0xC0 + u / 64). set (b1 := 0x80 + u mod 64).
    assert (Hb : 0xC2 <= b0 <= 0xDF ∧ 0x80 <= b1 <= 0xBF
                 ∧ (b0 - 0xC0) * 64 + (b1 - 0x80) = u)
      by (unfold b0, b1; divlia).
    clearbody b0 b1. destruct Hb as (Hb0 & Hb1 & <-).
    cbn [app Utf8.decode]. unfold in_range, Utf8.is_cont, in_range.
    by decide_comparisons. }
  destruct (Z.ltb_spec u 0x10000); [|lia].
  set (b0 := 0xE0 + u / 4096). set (b1 := 0x80 + (u / 64) mod 64).
  set (b2 := 0x80 + u mod 64).
  assert (Hb : 0xE0 <= b0 <= 0xEF ∧ 0x80 <= b1 <= 0xBF ∧ 0x80 <= b2 <= 0xBF
               ∧ (b0 = 0xE0 → 0xA0 <= b1) ∧ (b0 = 0xED → b1 <= 0x9F)
               ∧ (b0 - 0xE0) * 4096 + (b1 - 0x80) * 64 + (b2 - 0x80) = u)
    by (unfold b0, b1, b2; divlia).
  clearbody b0 b1 b2. destruct Hb as (Hb0 & Hb1 & Hb2 & HE0 & HED & <-).
  cbn [app Utf8.decode]. unfold in_range, Utf8.is_cont, in_range.
  by decide_comparisons.
Qed.

(** Decoding the UTF-8 of a surrogate pair. *)
Lemma decode_pair u l bs :
  is_high_surrogate u = true → is_low_surrogate l = true →
  Utf8.decode
    (Utf8.encode_code_point (0x10000 + (u - 0xD800) * 1024 + (l - 0xDC00))
       ++ bs)
  = u :: l :: Utf8.decode bs.
Proof.
  unfold is_high_surrogate, is_low_surrogate, in_range.
  intros Hu Hl.
  assert (Hu' : 0xD800 <= u <= 0xDBFF) by lia.
  assert (Hl' : 0xDC00 <= l <= 0xDFFF) by lia. clear Hu Hl.
  set (cp := 0x10000 + (u - 0xD800) * 1024 + (l - 0xDC00)).
  assert (Hcp : 0x10000 <= cp <= 0x10FFFF) by (unfold cp; lia).
  assert (Hu : u = 0xD800 + (cp - 0x10000) / 1024) by (unfold cp; divlia).
  assert (Hl : l = 0xDC00 + (cp - 0x10000) mod 1024) by (unfold cp; divlia).
  clearbody cp. subst u l. clear Hu' Hl'.
  unfold Utf8.encode_code_point.
  destruct (Z.ltb_spec cp 0x80); [lia|].
  destruct (Z.ltb_spec cp 0x800); [lia|].
  destruct (Z.ltb_spec cp 0x10000); [lia|].
  set (b0 := 0xF0 + cp / 262144). set (b1 := 0x80 + (cp / 4096) mod 64).
  set (b2 := 0x80 + (cp / 64) mod 64). set (b3 := 0x80 + cp mod 64).
  assert (Hb : 0xF0 <= b0 <= 0xF4 ∧ 0x80 <= b1 <= 0xBF ∧ 0x80 <= b2 <= 0xBF
               ∧ 0x80 <= b3 <= 0xBF
               ∧ (b0 = 0xF0 → 0x90 <= b1) ∧ (b0 = 0xF4 → b1 <= 0x8F)
               ∧ (b0 - 0xF0) * 262144 + (b1 - 0x80) * 4096
                 + (b2 - 0x80) * 64 + (b3 - 0x80) = cp)
    by (unfold b0, b1, b2, b3; divlia).
  clearbody b0 b1 b2 b3.
  destruct Hb as (Hb0 & Hb1 & Hb2 & Hb3 & HF0 & HF4 & Hsum).
  cbn [app Utf8.decode]. unfold in_range, Utf8.is_cont, in_range.
  decide_comparisons; rewrite Hsum; unfold Utf8.code_units;
    (destruct (Z.ltb_spec cp 0x10000); [lia|]); done.
Qed.

(** Well-formed strings survive the way to UTF-8 and back. *)
Lemma utf8_decode_encode s :
  well_formed s = true → Utf8.decode (Utf8.encode s) = s.
Proof.
  induction s as [|u rest IH IH'] using pairs_ind; intros Hs; [done|].
  cbn [well_formed Utf8.encode] in *.
  destruct (is_high_surrogate u) eqn:Hhigh.
  - destruct rest as [|l rest']; [done|].
    apply andb_prop in Hs as [Hlow Hrest]. rewrite Hlow.
    rewrite decode_pair by done. do 2 f_equal. by apply (IH' l rest').
  - apply andb_prop in Hs as [[Hu Hlow%negb_true_iff]%andb_prop Hrest].
    rewrite Hlow. rewrite decode_code_unit; try done.
    + f_equal. by apply IH.
    + unfold in_range in Hu. lia.
Qed.

(** ** The codec *)

Lemma well_formed_code_units s :
  well_formed s = true → Forall is_code_unit s.
Proof.
  induction s as [|u rest IH IH'] using pairs_ind; intros Hs;
    [apply Forall_nil_2|].
  cbn [well_formed] in Hs. unfold is_code_unit.
  destruct (is_high_surrogate u) eqn:Hhigh.
  - destruct rest as [|l rest']; [done|].
    apply andb_prop in Hs as [Hlow Hrest].
    unfold is_high_surrogate, is_low_surrogate, in_range in *.
    repeat apply Forall_cons_2; [lia..|]. by apply (IH' l rest').
  - apply andb_prop in Hs as [[Hu _]%andb_prop Hrest].
    unfold in_range in Hu. apply Forall_cons_2; [lia | by apply IH].
Qed.

Lemma valid_key_truthy key : valid_key key → truthy (VStr key) = true.
Proof. intros [_ Hlen]. by destruct key. Qed.

Lemma truthy_string p : p ≠ [] → truthy (VStr p) = true.
Proof. by destruct p. Qed.

Lemma create_cipher_valid key iv :
  valid_key key → iv ≠ [] →
  create_cipher (VStr key) iv = Return (Utf8.encode key).
Proof.
  intros [_ Hlen] Hiv. unfold create_cipher. cbn [string_bytes].
  rewrite Hlen. by destruct iv.
Qed.

(** What [aesEncryptData] returns for a non-empty string under a valid
    key: the nonce drawn from the random source, the ciphertext and the
    tag, in this order, as base64url text. *)
Lemma aesEncryptData_blob p key e :
  p ≠ [] → valid_key key →
  aesEncryptData (VStr p) (VStr key) e =
    (Return (VStr (Base64Url.encode
       ((randomBytes 12 e).1
          ++ (Gcm.encrypt (Utf8.encode key) (randomBytes 12 e).1
                (Utf8.encode p)).1
          ++ (Gcm.encrypt (Utf8.encode key) (randomBytes 12 e).1
                (Utf8.encode p)).2))),
     (randomBytes 12 e).2).
Proof.
  intros Hp Hkey. unfold aesEncryptData.
  rewrite truthy_string, valid_key_truthy by done. cbn [negb orb].
  destruct (randomBytes 12 e) as [aesIV e'] eqn:Hrb.
  assert (Hiv : aesIV ≠ []).
  { pose proof (randomBytes_length 12 e) as Hl. rewrite Hrb in Hl.
    by destruct aesIV. }
  rewrite create_cipher_valid by done. cbn [string_bytes fst snd].
  by destruct (Gcm.encrypt _ _ _).
Qed.

(** The raw bytes of a blob: all bytes, of lengths 12, N and 16. *)
Lemma blob_shape p key e :
  Forall is_code_unit p → valid_key key →
  let iv := (randomBytes 12 e).1 in
  let ct := (Gcm.encrypt (Utf8.encode key) iv (Utf8.encode p)).1 in
  let tag := (Gcm.encrypt (Utf8.encode key) iv (Utf8.encode p)).2 in
  length iv = 12%nat ∧ length ct = length (Utf8.encode p)
  ∧ length tag = 16%nat ∧ is_bytes (iv ++ ct ++ tag).
Proof.
  intros Hp [Hk Hlen] iv ct tag.
  pose proof (encode_bytes key Hk) as Hkb.
  assert (H16 : ∀ cb, length (Aes.cipher (Aes.key_schedule (Utf8.encode key)) cb)
                      = 16%nat) by (intros cb; by apply cipher_block).
  assert (Hcb : ∀ cb, is_bytes (Aes.cipher (Aes.key_schedule (Utf8.encode key)) cb))
    by (intros cb; by apply cipher_block).
  split; [apply randomBytes_length|].
  split; [unfold ct, Gcm.encrypt; cbn [fst]; by apply gctr_length|].
  split; [unfold tag, Gcm.encrypt; cbn [snd]; by apply tag_of_length|].
  apply Forall_app. split; [apply randomBytes_bytes|].
  apply Forall_app. split.
  - unfold ct, Gcm.encrypt. cbn [fst]. apply gctr_bytes; [done..|].
    by apply encode_bytes.
  - unfold tag, Gcm.encrypt. cbn [snd]. by apply tag_of_bytes.
Qed.

Lemma digits_of_bytes_length bs :
  length (Base64Url.digits_of_bytes bs) = ((4 * length bs + 2) / 3)%nat.
Proof.
  induction bs as [|a|a b|a b c rest IH] using triples_ind; [done..|].
  cbn [Base64Url.digits_of_bytes length]. rewrite IH.
  replace (4 * S (S (S (length rest))) + 2)%nat
    with ((4 * length rest + 2) + 4 * 3)%nat by lia.
  rewrite Nat.div_add by lia. lia.
Qed.

Lemma encode_url_safe bs :
  is_bytes bs → Forall (λ c, url_safe c = true) (Base64Url.encode bs).
Proof.
  intros Hb. unfold Base64Url.encode. apply Forall_fmap.
  eapply Forall_impl; [by apply digits_of_bytes_range|].
  intros d Hd. unfold compose. cbv beta in *.
  unfold Base64Url.char_of_digit.
  compare_cases; unfold url_safe, in_range; compare_cases; done.
Qed.

(** C8: for a non-empty plaintext and a valid key the blob is the
    base64url text, in the URL-safe alphabet and without padding, of the
    12 bytes drawn from the random source, followed by the ciphertext (as
    many bytes as the UTF-8 of the plaintext), followed by the 16 bytes of
    the tag; decoding the text gives these 12 + N + 16 bytes back. *)
Theorem blob_layout (p key : jsstring) (e : entropy) :
  p ≠ [] → Forall is_code_unit p → valid_key key →
  ∃ iv ct tag blob,
    aesEncryptData (VStr p) (VStr key) e
      = (Return (VStr blob), (randomBytes 12 e).2)
    ∧ blob = Base64Url.encode (iv ++ ct ++ tag)
    ∧ Base64Url.decode blob = iv ++ ct ++ tag
    ∧ iv = (randomBytes 12 e).1
    ∧ (ct, tag) = Gcm.encrypt (Utf8.encode key) iv (Utf8.encode p)
    ∧ length iv = 12%nat
    ∧ length ct = length (Utf8.encode p)
    ∧ length tag = 16%nat
    ∧ length (Base64Url.decode blob)
      = (12 + length (Utf8.encode p) + 16)%nat
    ∧ Forall (λ c, url_safe c = true) blob
    ∧ length blob = ((4 * (12 + length (Utf8.encode p) + 16) + 2) / 3)%nat.
Proof.
  intros Hp Hcu Hkey.
  destruct (blob_shape p key e Hcu Hkey) as (Hiv & Hct & Htag & Hbytes).
  set (iv := (randomBytes 12 e).1) in *.
  set (enc := Gcm.encrypt (Utf8.encode key) iv (Utf8.encode p)) in *.
  exists iv, enc.1, enc.2, (Base64Url.encode (iv ++ enc.1 ++ enc.2)).
  split; [by apply aesEncryptData_blob|].
  split; [done|].
  split; [by apply base64url_decode_encode|].
  split; [done|].
  split; [symmetry; apply surjective_pairing|].
  split; [done|]. split; [done|]. split; [done|].
  split.
  { rewrite base64url_decode_encode by done.
    rewrite !length_app, Hiv, Hct, Htag. lia. }
  split; [by apply encode_url_safe|].
  unfold Base64Url.encode. rewrite length_map, digits_of_bytes_length.
  by rewrite !length_app, Hiv, Hct, Htag.
Qed.

Lemma blob_layout_witness :
  ∃ iv ct tag blob,
    aesEncryptData (VStr [104; 105]) (VStr (repeat 107 32)) (λ _, 7)
      = (Return (VStr blob), (randomBytes 12 (λ _, 7)).2)
    ∧ blob = Base64Url.encode (iv ++ ct ++ tag)
    ∧ Base64Url.decode blob = iv ++ ct ++ tag
    ∧ iv = (randomBytes 12 (λ _, 7)).1
    ∧ (ct, tag) = Gcm.encrypt (Utf8.encode (repeat 107 32)) iv
                    (Utf8.encode [104; 105])
    ∧ length iv = 12%nat
    ∧ length ct = length (Utf8.encode [104; 105])
    ∧ length tag = 16%nat
    ∧ length (Base64Url.decode blob)
      = (12 + length (Utf8.encode [104; 105]%Z) + 16)%nat
    ∧ Forall (λ c, url_safe c = true) blob
    ∧ length blob
      = ((4 * (12 + length (Utf8.encode [104; 105]%Z) + 16) + 2) / 3)%nat.
Proof.
  apply (blob_layout [104; 105] (repeat 107 32) (λ _, 7)).
  - discriminate.
  - repeat apply Forall_cons_2; try apply Forall_nil_2; unfold is_code_unit; lia.
  - split; [|reflexivity]. cbv [repeat].
    repeat apply Forall_cons_2; try apply Forall_nil_2; unfold is_code_unit; lia.
Defined.

(** What [aesDecryptData] does with a blob of the right shape: it compares
    the last 16 bytes with the tag of the first 12 and the middle ones, and
    gives the decrypted middle or throws. *)
Lemma aesDecryptData_blob buffer_from_object key iv ct tag :
  valid_key key → length iv = 12%nat → length tag = 16%nat →
  is_bytes (iv ++ ct ++ tag) →
  aesDecryptData buffer_from_object
    (VStr (Base64Url.encode (iv ++ ct ++ tag))) (VStr key) =
    if bool_decide
         (tag = Gcm.tag_of (Aes.key_schedule (Utf8.encode key)) iv ct)
    then Return (VStr (Utf8.decode
           (Gcm.gctr (Aes.key_schedule (Utf8.encode key))
              (Gcm.inc32 (Gcm.j0 (Aes.key_schedule (Utf8.encode key)) iv))
              ct)))
    else Throw (VError AuthenticationFailed).
Proof.
  intros Hkey Hiv Htag Hbytes. unfold aesDecryptData.
  assert (Hne : iv ++ ct ++ tag ≠ []) by (by destruct iv).
  rewrite truthy_string by (by apply encode_nonempty).
  rewrite valid_key_truthy by done. cbn [negb orb buffer_from].
  rewrite base64url_decode_encode by done.
  destruct (subarray_views iv ct tag Hiv Htag) as (-> & -> & ->).
  rewrite create_cipher_valid by (done || by destruct iv).
  rewrite Htag.
  assert (Hvalid : valid_tag_length 16 = true) by (vm_compute; reflexivity).
  rewrite Hvalid.
  unfold Gcm.decrypt. cbv zeta. rewrite Htag.
  destruct Hkey as [Hk Hlen].
  assert (H16 : length (Gcm.tag_of (Aes.key_schedule (Utf8.encode key)) iv ct)
                = 16%nat).
  { apply tag_of_length. intros cb. apply cipher_block; [|done].
    by apply encode_bytes. }
  rewrite take_ge by lia.
  case_bool_decide as H1; case_bool_decide as H2; try congruence.
  change (Utf8.decode []) with (@nil Z). by rewrite app_nil_r.
Qed.

(** Decryption undoes encryption on the plaintexts that survive the
    UTF-8 conversion and are not taken for absent. *)
Lemma decrypt_encrypt (buffer_from_object : value → completion (list Z))
    (p key : jsstring) (e : entropy) :
  p ≠ [] → well_formed p = true → valid_key key →
  round_trip buffer_from_object (VStr p) (VStr key) e = Return (VStr p).
Proof.
  intros Hp Hwf Hkey. unfold round_trip.
  pose proof (well_formed_code_units p Hwf) as Hcu.
  rewrite aesEncryptData_blob by done.
  destruct (blob_shape p key e Hcu Hkey) as (Hiv & Hct & Htag & Hbytes).
  rewrite aesDecryptData_blob by done.
  unfold Gcm.encrypt. cbv zeta. cbn [fst snd].
  rewrite bool_decide_eq_true_2 by done.
  destruct Hkey as [Hk Hlen].
  rewrite gctr_twice.
  - by rewrite utf8_decode_encode.
  - intros cb. apply cipher_block; [by apply encode_bytes | done].
Qed.

(** C1, as amended: a plaintext that is not empty and is well-formed UTF-16
    comes back unchanged from encryption followed by decryption under the
    same valid key, whatever nonce the random source gives. *)
Theorem round_trip_law (buffer_from_object : value → completion (list Z))
    (p key : jsstring) (e : entropy) :
  p ≠ [] → well_formed p = true → valid_key key →
  round_trip buffer_from_object (VStr p) (VStr key) e = Return (VStr p).
Proof. apply decrypt_encrypt. Qed.

Lemma round_trip_law_witness :
  round_trip (λ _, Throw (VError InvalidArgType))
    (VStr [104; 105; 0xD83D; 0xDE00]) (VStr (repeat 107 32)) (λ _, 7)
  = Return (VStr [104; 105; 0xD83D; 0xDE00]).
Proof.
  apply (round_trip_law (λ _, Throw (VError InvalidArgType))
           [104; 105; 0xD83D; 0xDE00] (repeat 107 32) (λ _, 7)).
  - discriminate.
  - reflexivity.
  - split; [|reflexivity]. cbv [repeat].
    repeat apply Forall_cons_2; try apply Forall_nil_2; unfold is_code_unit; lia.
Defined.

(** C1 as stated fails for the empty string, for which [aesEncryptData]
    returns [null] and decryption of [null] is [null], and for a string
    with an unpaired surrogate, which comes back as U+FFFD. *)
Lemma round_trip_counterexample :
  round_trip (λ _, Throw (VError InvalidArgType))
    (VStr []) (VStr (repeat 107 32)) (λ _, 7) = Return VNull
  ∧ Return VNull ≠ Return (VStr [])
  ∧ round_trip (λ _, Throw (VError InvalidArgType))
      (VStr [0xD800]) (VStr (repeat 107 32)) (λ _, 7) = Return (VStr [0xFFFD])
  ∧ Return (VStr [0xFFFD]) ≠ Return (VStr [0xD800]).
Proof.
  split; [reflexivity|]. split; [discriminate|].
  split; [vm_compute; reflexivity | discriminate].
Qed.








(** C10: for a field named [__proto__] holding the empty string,
    [aesEncryptData] returns [null] and the assignment
    [results[key] = null] makes [null] the prototype of the mapping
    instead of creating the field: the bulk encryption resolves, to a
    mapping in which that field is absent. *)
Theorem empty_field_under_proto_key (key : value) (e : entropy) :
  outer (run [0%nat]
    (bulkAesEncrypt [("__proto__"%string, VStr [])] key e).1) = Resolved
  ∧ outcome (run [0%nat]
      (bulkAesEncrypt [("__proto__"%string, VStr [])] key e).1)
    = Fulfils (VObjProto VNull [])
  ∧ assoc "__proto__"
      (results (run [0%nat]
         (bulkAesEncrypt [("__proto__"%string, VStr [])] key e).1)) = None.
Proof. repeat split. Qed.

(** ** The resolved mapping *)

Lemma settle_task_completed st i :
  (completed st <= completed (settle_task st i) <= completed st + 1)%nat.
Proof.
  unfold settle_task.
  destruct (tasks st !! i) as [[key [result|err|]]|]; try lia.
  - destruct (Obj.set _ _ _ _) as [[proto' results']|err].
    + cbv zeta. cbn [completed total].
      destruct (_ =? _)%nat; [|cbn; lia].
      match goal with |- context [resolve ?s] =>
        destruct (resolve_fields s) as (_ & _ & -> & _) end. cbn. lia.
    + destruct (reject_fields err st) as (_ & _ & -> & _). lia.
  - destruct (reject_fields err st) as (_ & _ & -> & _). lia.
Qed.

Lemma run_completed st schedule :
  (completed st <= completed (run schedule st)
   <= completed st + length schedule)%nat.
Proof.
  revert st. induction schedule as [|i rest IH]; intros st; simpl; [lia|].
  pose proof (settle_task_completed st i). pose proof (IH (settle_task st i)).
  lia.
Qed.

(** A reaction that was counted recorded its result. *)
Lemma settle_task_counted st i :
  completed (settle_task st i) = (completed st + 1)%nat →
  ∃ key result proto' results',
    tasks st !! i = Some (key, Fulfils result)
    ∧ Obj.set key result (proto st) (results st) = Return (proto', results')
    ∧ results (settle_task st i) = results'
    ∧ proto (settle_task st i) = proto'.
Proof.
  unfold settle_task.
  destruct (tasks st !! i) as [[key [result|err|]]|] eqn:Hi; try lia.
  - destruct (Obj.set _ _ _ _) as [[proto' results']|err] eqn:Hset.
    + intros _. exists key, result, proto', results'.
      cbv zeta. cbn [completed total].
      destruct (_ =? _)%nat; [|done].
      match goal with |- context [resolve ?s] =>
        destruct (resolve_fields s) as (-> & -> & _) end. done.
    + destruct (reject_fields err st) as (_ & _ & -> & _). lia.
  - destruct (reject_fields err st) as (_ & _ & -> & _). lia.
Qed.

(** An assignment that goes through, by the key. *)
Lemma set_other_key k v proto o proto' o' :
  k ≠ "__proto__" → Obj.set k v proto o = Return (proto', o') →
  proto' = proto ∧ o' = Obj.define k v o.
Proof.
  intros Hk. unfold Obj.set.
  destruct (String.eqb_spec k "__proto__"); [done|]. cbn [andb].
  destruct (_ && _); [done|]. by intros [= <- <-].
Qed.

Lemma set_proto_key v o proto' o' :
  assoc "__proto__" o = None →
  Obj.set "__proto__" v None o = Return (proto', o') → o' = o.
Proof.
  intros Hown. rewrite set_plain. rewrite Hown.
  rewrite bool_decide_eq_false_2 by (by intros [? ?]).
  cbn. by destruct (is_object v || _); intros [= <- <-].
Qed.

(** What the counted reactions leave in [results]: one property for each
    task whose key is not [__proto__], under the task's key, holding the
    task's result. *)
Lemma run_counted_results st schedule :
  results st = [] → proto st = None → NoDup (tasks st).*1 →
  NoDup schedule →
  completed (run schedule st) = (completed st + length schedule)%nat →
  Forall (fulfils st) schedule
  ∧ NoDup (Obj.keys (results (run schedule st)))
  ∧ (∀ k, k ∈ Obj.keys (results (run schedule st))
          ↔ k ≠ "__proto__"
            ∧ ∃ i r, i ∈ schedule ∧ tasks st !! i = Some (k, Fulfils r))
  ∧ (∀ i k r, i ∈ schedule → tasks st !! i = Some (k, Fulfils r) →
       k ≠ "__proto__" → assoc k (results (run schedule st)) = Some r)
  ∧ ((∀ i s, i ∈ schedule → tasks st !! i ≠ Some ("__proto__"%string, s)) →
     proto (run schedule st) = None).
Proof.
  intros Hres Hproto Hkeys.
  induction schedule as [|i schedule IH] using rev_ind; intros Hnd Hcount.
  - simpl. rewrite Hres. simpl.
    split; [apply Forall_nil_2|]. split; [apply NoDup_nil_2|]. split.
    + intros k. split; [by intros ?%elem_of_nil|].
      by intros (_ & i & r & ?%elem_of_nil & _).
    + split; [by intros i k r ?%elem_of_nil | done].
  - apply NoDup_app in Hnd as (Hnd & Hfresh & _).
    rewrite run_snoc, length_app in Hcount. simpl in Hcount.
    pose proof (run_completed st schedule) as Hbound.
    pose proof (settle_task_completed (run schedule st) i) as Hstep.
    destruct (IH Hnd) as (IHf & IH1 & IH2 & IH3 & IH4); [lia|]. clear IH.
    destruct (settle_task_counted (run schedule st) i)
      as (key & result & proto' & results' & Hi & Hset & Hr & Hp); [lia|].
    destruct (run_frame schedule st) as (_ & Hts & _). rewrite Hts in Hi.
    assert (Hnotin : i ∉ schedule).
    { intros Hin. apply (Hfresh i Hin). by apply list_elem_of_singleton. }
    assert (Hdistinct : ∀ j k s,
      j ∈ schedule → tasks st !! j = Some (k, s) → k ≠ key).
    { intros j k s Hj Hjt ->. apply Hnotin.
      assert (j = i) as ->; [|done].
      eapply NoDup_lookup; [apply Hkeys|..];
        rewrite list_lookup_fmap; [by rewrite Hjt | by rewrite Hi]. }
    rewrite run_snoc, Hr, Hp.
    split.
    { apply Forall_app. split; [done|].
      apply Forall_singleton. by exists key, result. }
    destruct (String.eqb_spec key "__proto__") as [->|Hkey].
    + (* the accessor: the own properties stay *)
      assert (Hnone : proto (run schedule st) = None).
      { apply IH4. intros j s Hj Hjt. by apply (Hdistinct j _ s Hj Hjt). }
      assert (Hown : assoc "__proto__" (results (run schedule st)) = None).
      { apply assoc_None_keys. intros Hin%IH2. by destruct Hin. }
      rewrite Hnone in Hset. apply set_proto_key in Hset; [|done]. subst results'.
      split; [done|]. split; [|split].
      * intros k. rewrite IH2. split.
        -- intros (Hk & j & r & Hj & Hjt). split; [done|].
           exists j, r. split; [|done]. apply elem_of_app. by left.
        -- intros (Hk & j & r & [Hj|Hj%list_elem_of_singleton]%elem_of_app
                   & Hjt).
           ++ split; [done|]. by exists j, r.
           ++ subst j. congruence.
      * intros j k r [Hj|Hj%list_elem_of_singleton]%elem_of_app Hjt Hk.
        -- by apply (IH3 j).
        -- subst j. congruence.
      * intros Hno. exfalso. apply (Hno i (Fulfils result)); [|done].
        apply elem_of_app. right. by apply list_elem_of_singleton.
    + apply (set_other_key key result) in Hset as [-> ->]; [|done].
      assert (Hnew : key ∉ Obj.keys (results (run schedule st))).
      { intros (_ & j & r & Hj & Hjt)%IH2.
        by apply (Hdistinct j key (Fulfils r)). }
      pose proof (keys_define_fresh key result _ Hnew) as Hperm.
      split; [rewrite Hperm; by apply NoDup_cons|]. split; [|split].
      * intros k. rewrite Hperm, elem_of_cons, IH2. split.
        -- intros [->|(Hk & j & r & Hj & Hjt)].
           ++ split; [done|]. exists i, result. split; [|done].
              apply elem_of_app. right. by apply list_elem_of_singleton.
           ++ split; [done|]. exists j, r. split; [|done].
              apply elem_of_app. by left.
        -- intros (Hk & j & r & [Hj|Hj%list_elem_of_singleton]%elem_of_app
                   & Hjt).
           ++ right. split; [done|]. by exists j, r.
           ++ subst j. left. congruence.
      * intros j k r [Hj|Hj%list_elem_of_singleton]%elem_of_app Hjt Hk.
        -- rewrite assoc_define.
           destruct (String.eqb_spec key k) as [->|_].
           ++ by destruct (Hdistinct j k (Fulfils r)).
           ++ by apply (IH3 j).
        -- subst j.
           assert (k = key ∧ r = result) as [-> ->] by (split; congruence).
           rewrite assoc_define. by rewrite String.eqb_refl.
      * intros Hno. apply IH4. intros j s Hj. apply Hno.
        apply elem_of_app. by left.
Qed.

(** Resolution means that a run of counted fulfilments has reached
    [total]. *)
Lemma run_resolved schedule st :
  outer st = Pending → Forall (settles st) schedule →
  outer (run schedule st) = Resolved →
  ∃ pre post,
    schedule = pre ++ post
    ∧ completed (run pre st) = (completed st + length pre)%nat
    ∧ (completed st + length pre = total st)%nat
    ∧ outer (run pre st) = Resolved.
Proof.
  revert st. induction schedule as [|i rest IH]; intros st Hp Hs Hr; simpl in Hr.
  - congruence.
  - apply Forall_cons in Hs as [(key & s & Hi & Hs0) Hs].
    destruct (settle_task_frame st i) as (Ht & Hts & _).
    destruct s as [result|err|]; [| |done].
    + destruct (Obj.set key result (proto st) (results st))
        as [[proto' results']|err] eqn:Hset.
      * destruct (settle_task_fulfils st i key result proto' results' Hi Hset)
          as (_ & _ & Hc & Ho).
        rewrite Hp in Ho.
        destruct (Nat.eqb_spec (completed st + 1) (total st)) as [Heq|Hne].
        -- exists [i], rest. simpl. repeat split; [lia..|done].
        -- destruct (IH (settle_task st i)) as (pre & post & -> & H1 & H2 & H3);
             try done.
           { eapply Forall_impl; [apply Hs|].
             intros j (k & s & Hj & Hne'). exists k, s. by rewrite Hts. }
           exists (i :: pre), post. simpl.
           rewrite Hc, Ht in *. repeat split; [lia..|done].
      * exfalso.
        assert (Hrej : outer (settle_task st i) = Rejected err).
        { unfold settle_task. rewrite Hi, Hset. by apply reject_outcome. }
        rewrite run_settled in Hr; congruence.
    + exfalso.
      pose proof (settle_task_rejects st i key err Hp Hi) as Hrej.
      rewrite run_settled in Hr; congruence.
Qed.

(** A resolved promise has run the reaction of every task, once, and
    counted each. *)
Lemma resolved_schedule st schedule :
  outer st = Pending → completed st = 0%nat → total st = length (tasks st) →
  valid_schedule st schedule →
  outer (run schedule st) = Resolved →
  schedule ≡ₚ seq 0 (length (tasks st))
  ∧ completed (run schedule st) = length schedule.
Proof.
  intros Hp Hc Ht [Hnd Hs] Hr.
  destruct (run_resolved schedule st Hp Hs Hr)
    as (pre & post & -> & Hcount & Hlen & _).
  apply NoDup_app in Hnd as (Hnd & Hdisj & _).
  assert (Hlt : Forall (λ i, (i < length (tasks st))%nat) (pre ++ post)).
  { eapply Forall_impl; [apply Hs|]. intros j (k & s & Hj & _).
    by eapply lookup_lt_Some. }
  apply Forall_app in Hlt as [Hlt1 Hlt2].
  assert (Hsub : pre ⊆+ seq 0 (length (tasks st))).
  { apply NoDup_submseteq; [done|]. intros j Hj. apply elem_of_seq.
    rewrite Forall_forall in Hlt1. specialize (Hlt1 j Hj). lia. }
  assert (Hperm : pre ≡ₚ seq 0 (length (tasks st))).
  { apply submseteq_length_Permutation; [done|]. rewrite length_seq. lia. }
  assert (post = []) as ->.
  { destruct post as [|j post]; [done|]. exfalso.
    apply Forall_cons in Hlt2 as [Hj _].
    apply (Hdisj j); [|left].
    rewrite Hperm. apply elem_of_seq. lia. }
  rewrite app_nil_r. split; [done|]. rewrite Hcount, Hc. done.
Qed.

(** What a resolved run has recorded: every reaction ran once, and the
    mapping holds the fulfilment values under the keys other than
    [__proto__]. *)
Lemma resolved_mapping {W : Type} (f : option transform) object (w : W)
    (schedule : list nat) :
  NoDup object.*1 →
  valid_schedule (promiseAllRecord f object w).1 schedule →
  outer (run schedule (promiseAllRecord f object w).1) = Resolved →
  schedule ≡ₚ seq 0 (length object)
  ∧ Obj.keys (results (run schedule (promiseAllRecord f object w).1))
    ≡ₚ filter (λ k, k ≠ "__proto__"%string) object.*1
  ∧ (∀ i key v, object !! i = Some (key, v) →
       ∃ result,
         awaited f object w i key (Fulfils result)
         ∧ (key ≠ "__proto__"%string →
            assoc key (results (run schedule (promiseAllRecord f object w).1))
              = Some result))
  ∧ ("__proto__"%string ∉ object.*1 →
     (∀ t, assoc "then"
             (results (run schedule (promiseAllRecord f object w).1)) = Some t →
           is_callable t = false) →
     outcome (run schedule (promiseAllRecord f object w).1)
       = Fulfils (VObj (results (run schedule (promiseAllRecord f object w).1)))).
Proof.
  set (st0 := (promiseAllRecord f object w).1).
  intros Hnd Hvalid Hr.
  assert (Hp : outer st0 = Pending).
  { destruct (outer st0) eqn:Ho; [done|..].
    - by destruct (promiseAllRecord_outer f object w).
    - rewrite run_settled in Hr; congruence. }
  destruct (promiseAllRecord_pending f object w Hp)
    as (_ & Hk & Ht & Hres & Hpr & Hc & _).
  fold st0 in Hk, Ht, Hres, Hpr, Hc.
  destruct (resolved_schedule st0 schedule Hp Hc Ht Hvalid Hr) as [Hperm Hcount].
  assert (Hlen : length (tasks st0) = length object).
  { by rewrite <- (length_fmap fst (tasks st0)), Hk, length_fmap. }
  destruct (run_counted_results st0 schedule) as (Hf & H1 & H2 & H3 & H4);
    [done | done | by rewrite Hk | apply Hvalid | by rewrite Hcount, Hc |].
  assert (Hall : ∀ i key, object.*1 !! i = Some key →
            ∃ result, tasks st0 !! i = Some (key, Fulfils result)
                      ∧ i ∈ schedule).
  { intros i key Hi. rewrite <- Hk, list_lookup_fmap in Hi.
    destruct (tasks st0 !! i) as [[k s]|] eqn:Hti; [|done].
    simpl in Hi. injection Hi as ->.
    assert (Hin : i ∈ schedule).
    { rewrite Hperm. apply elem_of_seq. apply lookup_lt_Some in Hti. lia. }
    rewrite Forall_forall in Hf. destruct (Hf i Hin) as (k' & r & Hti').
    exists r. split; [congruence | done]. }
  split; [by rewrite Hperm, Hlen|]. split; [|split].
  - apply NoDup_Permutation; [done | by apply NoDup_filter |].
    intros k. rewrite H2, list_elem_of_filter. split.
    + intros (Hne & i & r & _ & Hi). split; [done|]. rewrite <- Hk.
      by apply (task_key_in st0 i k (Fulfils r)).
    + intros (Hne & (i & Hi)%list_elem_of_lookup_1). split; [done|].
      destruct (Hall i k Hi) as (r & Hti & Hin). by exists i, r.
  - intros i key v Hi.
    destruct (Hall i key) as (r & Hti & Hin).
    { by rewrite list_lookup_fmap, Hi. }
    exists r. split.
    + by apply (tasks_awaited f object w i key _ Hp).
    + intros Hkey. by apply (H3 i).
  - intros Hproto Hthen. unfold outcome. rewrite Hr.
    unfold results_object. rewrite H4.
    + apply settle_of_not_callable; [done|]. cbn [get_then].
      destruct (assoc "then" _) as [t|] eqn:Hassoc; [by apply Hthen | done].
    + intros i s Hi Hti. apply Hproto. rewrite <- Hk.
      by apply (task_key_in st0 i _ s).
Qed.

(** Key-set preservation, for keys other than [__proto__]: when the
    promise returned for a mapping is resolved, the reaction of every
    entry has run once; the resolved mapping has exactly the keys of the
    input other than [__proto__]; the promise awaited for every entry
    fulfilled, and its fulfilment value is what the mapping holds under the
    entry's key; and without a key [__proto__] and a callable [then] the
    promise fulfils with that mapping. *)
Theorem key_set_preserved {W : Type} (f : option transform) object (w : W)
    (schedule : list nat) :
  NoDup object.*1 →
  valid_schedule (promiseAllRecord f object w).1 schedule →
  outer (run schedule (promiseAllRecord f object w).1) = Resolved →
  schedule ≡ₚ seq 0 (length object)
  ∧ Obj.keys (results (run schedule (promiseAllRecord f object w).1))
    ≡ₚ filter (λ k, k ≠ "__proto__"%string) object.*1
  ∧ (∀ i key v, object !! i = Some (key, v) →
       ∃ result,
         awaited f object w i key (Fulfils result)
         ∧ (key ≠ "__proto__"%string →
            assoc key (results (run schedule (promiseAllRecord f object w).1))
              = Some result))
  ∧ ("__proto__"%string ∉ object.*1 →
     (∀ t, assoc "then"
             (results (run schedule (promiseAllRecord f object w).1)) = Some t →
           is_callable t = false) →
     outcome (run schedule (promiseAllRecord f object w).1)
       = Fulfils (VObj (results (run schedule (promiseAllRecord f object w).1)))).
Proof. exact (resolved_mapping f object w schedule). Qed.

Lemma key_set_preserved_witness :
  Obj.keys (results (run [1; 0]%nat
    (promiseAllRecord (W := unit) (Some (λ v w, (Return v, w)))
       [("a"%string, VNum 1);
        ("__proto__"%string, VPromise (Fulfils (VNum 2)))] tt).1))
  ≡ₚ filter (λ k, k ≠ "__proto__"%string)
       [("a"%string, VNum 1);
        ("__proto__"%string, VPromise (Fulfils (VNum 2)))].*1.
Proof.
  apply (key_set_preserved (W := unit) (Some (λ v w, (Return v, w)))
           [("a"%string, VNum 1);
            ("__proto__"%string, VPromise (Fulfils (VNum 2)))] tt [1; 0]%nat).
  - apply (bool_decide_unpack _). vm_compute. reflexivity.
  - split.
    + apply (bool_decide_unpack _). vm_compute. reflexivity.
    + repeat apply Forall_cons_2; [| |apply Forall_nil_2].
      * exists "__proto__"%string, (Fulfils (VNum 2)). by split.
      * exists "a"%string, (Fulfils (VNum 1)). by split.
  - reflexivity.
Defined.

(** The executor does not throw when every entry has a promise to await:
    a value that counts as one, or a transform that returns for it. *)
Lemma awaited_all_pending {W : Type} (f : option transform) object (w : W) :
  (∀ i key v, object !! i = Some (key, v) → ∃ s, awaited f object w i key s) →
  outer (promiseAllRecord f object w).1 = Pending.
Proof.
  intros Hall.
  assert (Hpre : ∀ n, (n <= length object)%nat →
    ∃ st w', for_each f (take n object)
               (Engine [] 0 (length object) Pending [] []) w = (None, st, w')).
  { induction n as [|n IH]; intros Hn.
    - rewrite take_0. by eexists _, _.
    - destruct IH as (st & w' & Hfe); [lia|].
      destruct (lookup_lt_is_Some_2 object n) as [[key v] Hv]; [lia|].
      rewrite (take_S_r _ _ _ Hv), for_each_app, Hfe. cbn [for_each].
      destruct (Hall n key v Hv) as (s & v' & Hv' & Hs).
      assert (v' = v) as -> by congruence.
      unfold launch. destruct (isPromise v) eqn:Hp; cbn [negb andb].
      + by eexists _, _.
      + destruct Hs as (g & st_i & w_i & p & w2 & -> & Hfe' & Hg & _).
        assert (w_i = w') as -> by congruence.
        rewrite bool_decide_eq_true_2 by done. cbn [negb]. rewrite Hg.
        by eexists _, _. }
  destruct (Hpre (length object)) as (st & w' & Hfe); [lia|].
  rewrite firstn_all in Hfe.
  unfold promiseAllRecord. rewrite Hfe. cbn [fst].
  by apply for_each_inv in Hfe as (_ & _ & _ & _ & -> & _).
Qed.

(** Once every task has fulfilled and been recorded, the promise is
    resolved. *)
Lemma run_all_fulfilled st schedule :
  outer st = Pending → proto st = None → "__proto__" ∉ (tasks st).*1 →
  completed st = 0%nat → total st = length schedule → schedule ≠ [] →
  Forall (fulfils st) schedule →
  outer (run schedule st) = Resolved
  ∧ proto (run schedule st) = None
  ∧ completed (run schedule st) = length schedule.
Proof.
  intros Hp Hproto Hkeys Hc Ht Hne Hf.
  destruct schedule as [|i0 rest0] using rev_ind; [done|]. clear IHrest0.
  apply Forall_app in Hf as [Hf Hi].
  apply Forall_singleton in Hi as (key & result & Hi).
  rewrite length_app in Ht. simpl in Ht.
  destruct (run_pending rest0 st Hp Hproto Hkeys Hf) as (Hp' & Hpr' & Hc');
    [lia|].
  rewrite run_snoc.
  destruct (run_frame rest0 st) as (Ht' & Hts & _).
  assert (Hkey : key ≠ "__proto__").
  { intros ->. by apply Hkeys, (task_key_in st i0 _ (Fulfils result)). }
  destruct (settle_task_fulfils (run rest0 st) i0 key result None
              (Obj.define key result (results (run rest0 st))))
    as (_ & -> & -> & ->).
  - by rewrite Hts.
  - rewrite Hpr'. by apply set_plain_other.
  - rewrite Hp', Hc', Ht', Hc, length_app. simpl.
    destruct (Nat.eqb_spec (length rest0 + 1) (total st)); [done|lia].
Qed.

(** With every awaited promise fulfilling, a full schedule resolves. *)
Lemma fulfilled_resolves {W : Type} (f : option transform) object (w : W)
    (schedule : list nat) :
  object ≠ [] → "__proto__"%string ∉ object.*1 →
  (∀ i key v, object !! i = Some (key, v) →
     ∃ result, awaited f object w i key (Fulfils result)) →
  schedule ≡ₚ seq 0 (length object) →
  outer (run schedule (promiseAllRecord f object w).1) = Resolved
  ∧ valid_schedule (promiseAllRecord f object w).1 schedule.
Proof.
  set (st0 := (promiseAllRecord f object w).1).
  intros Hne Hproto Hall Hperm.
  assert (Hp : outer st0 = Pending).
  { apply awaited_all_pending. intros i key v Hv.
    destruct (Hall i key v Hv) as [r Hr]. by exists (Fulfils r). }
  destruct (promiseAllRecord_pending f object w Hp)
    as (_ & Hk & Ht & Hres & Hpr & Hc & _).
  fold st0 in Hk, Ht, Hres, Hpr, Hc.
  assert (Hlen : length (tasks st0) = length object).
  { by rewrite <- (length_fmap fst (tasks st0)), Hk, length_fmap. }
  assert (Hf : Forall (fulfils st0) schedule).
  { apply Forall_forall. intros i Hi. rewrite Hperm in Hi.
    apply elem_of_seq in Hi.
    destruct (lookup_lt_is_Some_2 object i) as [[key v] Hv]; [lia|].
    destruct (Hall i key v Hv) as [r Hr].
    apply (tasks_awaited f object w i key _ Hp) in Hr. by exists key, r. }
  split.
  - apply run_all_fulfilled; try done.
    + by rewrite Hk.
    + by rewrite Ht, Hlen, Hperm, length_seq.
    + intros ->. apply Permutation_nil_l in Hperm.
      destruct object; [done|]. discriminate Hperm.
  - split.
    + rewrite Hperm. apply NoDup_seq.
    + eapply Forall_impl; [apply Hf|].
      intros i (key & r & Hi). by exists key, (Fulfils r).
Qed.

(** The promise does resolve: for a mapping that is not empty and has no
    own key [__proto__], when the promise awaited for every entry
    fulfils, the returned promise is resolved once the reaction of every
    entry has run, in whatever order. *)
Theorem all_fulfilled_resolves {W : Type} (f : option transform) object (w : W)
    (schedule : list nat) :
  object ≠ [] → "__proto__"%string ∉ object.*1 →
  (∀ i key v, object !! i = Some (key, v) →
     ∃ result, awaited f object w i key (Fulfils result)) →
  schedule ≡ₚ seq 0 (length object) →
  outer (run schedule (promiseAllRecord f object w).1) = Resolved
  ∧ valid_schedule (promiseAllRecord f object w).1 schedule.
Proof. exact (fulfilled_resolves f object w schedule). Qed.

Lemma all_fulfilled_resolves_witness :
  outer (run [1; 0]%nat
    (promiseAllRecord (W := unit) (Some (λ v w, (Return v, w)))
       [("a"%string, VNum 1);
        ("b"%string, VPromise (Fulfils (VNum 2)))] tt).1) = Resolved
  ∧ valid_schedule
      (promiseAllRecord (W := unit) (Some (λ v w, (Return v, w)))
         [("a"%string, VNum 1);
          ("b"%string, VPromise (Fulfils (VNum 2)))] tt).1 [1; 0]%nat.
Proof.
  apply (all_fulfilled_resolves (W := unit) (Some (λ v w, (Return v, w)))
           [("a"%string, VNum 1);
            ("b"%string, VPromise (Fulfils (VNum 2)))] tt [1; 0]%nat).
  - discriminate.
  - apply (bool_decide_unpack _). vm_compute. reflexivity.
  - intros [|[|i]] key v Hv; [| |done].
    + injection Hv as <- <-. exists (VNum 1), (VNum 1). split; [done|].
      exists (λ v w, (Return v, w)), (Engine [] 0 2 Pending [] []), tt,
        (VNum 1), tt. by repeat split.
    + injection Hv as <- <-. exists (VNum 2), (VPromise (Fulfils (VNum 2))).
      by split.
  - apply perm_swap.
Defined.

(** The transform calls are the non-promise values of the entries launched,
    in order. *)
Lemma calls_launched {W : Type} (f : option transform) object (w : W) :
  ∃ launched,
    (launched `prefix_of` object)
    ∧ calls (promiseAllRecord f object w).1
      = filter (λ v, isPromise v = false) launched.*2.
Proof.
  unfold promiseAllRecord.
  destruct (for_each _ _ _ _) as [[r st] w'] eqn:Hfe.
  apply for_each_inv in Hfe
    as (_ & _ & _ & _ & _ & launched & new & _ & _ & Hc & Hr).
  exists launched. split.
  - destruct r as [err|]; [|by subst].
    destruct Hr as (entry & rest & w0 & -> & _). by eexists.
  - destruct r as [err|]; cbn [fst]; [|done].
    by destruct (reject_fields err st) as (_ & _ & _ & _ & _ & ->).
Qed.

Lemma calls_not_promises {W : Type} (f : option transform) object (w : W) :
  Forall (λ v, isPromise v = false) (calls (promiseAllRecord f object w).1).
Proof.
  destruct (calls_launched f object w) as (launched & _ & ->).
  apply Forall_forall. intros v Hv.
  by apply list_elem_of_filter in Hv as [? _].
Qed.


(** An object with a truthy [then] that is not callable, under a key other
    than [__proto__]: it counts as a promise, the transform is not called
    for it, and when the returned promise is resolved the mapping holds the
    object itself under its key. *)
Theorem thenable_kept {W : Type} (f : option transform) object (w : W)
    (schedule : list nat) i key props t :
  NoDup object.*1 →
  valid_schedule (promiseAllRecord f object w).1 schedule →
  outer (run schedule (promiseAllRecord f object w).1) = Resolved →
  object !! i = Some (key, VObj props) →
  assoc "then" props = Some t → truthy t = true → is_callable t = false →
  key ≠ "__proto__"%string →
  isPromise (VObj props) = true
  ∧ (VObj props ∉ calls (promiseAllRecord f object w).1)
  ∧ awaited f object w i key (Fulfils (VObj props))
  ∧ assoc key (results (run schedule (promiseAllRecord f object w).1))
    = Some (VObj props).
Proof.
  intros Hnd Hvalid Hr Hi Ht Htruthy Hcallable Hkey.
  assert (Hp : isPromise (VObj props) = true).
  { unfold isPromise. simpl. by rewrite Ht. }
  assert (Hs : settle_of (VObj props) = Fulfils (VObj props)).
  { apply settle_of_not_callable; [done|]. simpl. by rewrite Ht. }
  split; [done|]. split.
  { intros Hin. pose proof (calls_not_promises f object w) as Hcalls.
    rewrite Forall_forall in Hcalls. specialize (Hcalls _ Hin). congruence. }
  destruct (resolved_mapping f object w schedule Hnd Hvalid Hr)
    as (_ & _ & Hvalues & _).
  destruct (Hvalues i key (VObj props) Hi) as (r & Haw & Hassoc).
  assert (r = VObj props) as ->.
  { destruct Haw as (v & Hv & Hdesc).
    assert (v = VObj props) as -> by congruence.
    rewrite Hp in Hdesc. congruence. }
  split; [done | by apply Hassoc].
Qed.

Lemma thenable_kept_witness :
  assoc "k"
    (results (run [0%nat]
       (promiseAllRecord (W := unit) (Some (λ v w, (Return (VNum 0), w)))
          [("k"%string, VObj [("then"%string, VNum 7)])] tt).1))
  = Some (VObj [("then"%string, VNum 7)]).
Proof.
  apply (thenable_kept (W := unit) (Some (λ v w, (Return (VNum 0), w)))
           [("k"%string, VObj [("then"%string, VNum 7)])] tt [0%nat] 0 "k"
           [("then"%string, VNum 7)] (VNum 7)).
  - apply (bool_decide_unpack _). vm_compute. reflexivity.
  - split; [apply NoDup_singleton|]. apply Forall_singleton.
    exists "k"%string, (Fulfils (VObj [("then"%string, VNum 7)])). by split.
  - reflexivity.
  - reflexivity.
  - reflexivity.
  - reflexivity.
  - reflexivity.
  - discriminate.
Defined.

(** ** A total transform over a whole mapping *)

Lemma for_each_returns {W : Type} (g : transform) entries st (w : W) :
  (∀ entry, entry ∈ entries →
     isPromise entry.2 = true ∨ ∀ w, ∃ p w', g entry.2 w = (Return p, w')) →
  ∃ st' w', for_each (Some g) entries st w = (None, st', w').
Proof.
  revert st w. induction entries as [|[key v] rest IH]; intros st w Hall.
  - by eexists _, _.
  - cbn [for_each]. unfold launch.
    destruct (Hall (key, v)) as [Hp|Hg]; [left|..]; cbn [snd] in *.
    + rewrite Hp. cbn [negb andb]. apply IH.
      intros entry Hin. apply Hall. by right.
    + destruct (isPromise v); cbn [negb andb].
      * apply IH. intros entry Hin. apply Hall. by right.
      * rewrite bool_decide_eq_true_2 by done. cbn [negb].
        destruct (Hg w) as (p & w' & ->). apply IH.
        intros entry Hin. apply Hall. by right.
Qed.

Lemma filter_all {A} (P : A → Prop) `{∀ x, Decision (P x)} (l : list A) :
  Forall P l → filter P l = l.
Proof.
  induction 1 as [|x l Hx Hl IH]; [done|].
  rewrite filter_cons, decide_True by done. by rewrite IH.
Qed.

Lemma assoc_None_keys' k o : assoc k o ≠ None → k ∈ Obj.keys o.
Proof.
  intros H. destruct (decide (k ∈ Obj.keys o)) as [|Hn]; [done|].
  by apply assoc_None_keys in Hn.
Qed.

Lemma assoc_lookup (o : list (string * value)) i key v :
  NoDup o.*1 → o !! i = Some (key, v) → assoc key o = Some v.
Proof.
  revert i. induction o as [|[k x] o IH]; intros i Hnd Hi; [done|].
  apply NoDup_cons in Hnd as [Hk Hnd]. simpl.
  destruct i as [|i]; simpl in Hi.
  - injection Hi as -> ->. by rewrite String.eqb_refl.
  - destruct (String.eqb_spec k key) as [->|_]; [|by apply (IH i)].
    exfalso. apply Hk.
    apply (list_elem_of_fmap_2 fst _ _ (list_elem_of_lookup_2 _ _ _ Hi)).
Qed.

(** The mapping built from a transform that returns plain values. *)
Lemma transformed_mapping {W : Type} (g : transform) object (w : W) :
  object ≠ [] → NoDup object.*1 → "__proto__"%string ∉ object.*1 →
  (∀ key v, (key, v) ∈ object →
     isPromise v = false
     ∧ ∀ w, ∃ r w', g v w = (Return (VPromise (Fulfils r)), w')
                    ∧ is_callable r = false) →
  ∃ out,
    outcome (run (fifo (promiseAllRecord (Some g) object w).1)
               (promiseAllRecord (Some g) object w).1)
      = Fulfils (VObj out)
    ∧ out.*1 ≡ₚ object.*1
    ∧ ∀ key v, (key, v) ∈ object →
        ∃ w_i w' r, g v w_i = (Return (VPromise (Fulfils r)), w')
                    ∧ assoc key out = Some r.
Proof.
  set (st0 := (promiseAllRecord (Some g) object w).1).
  intros Hne Hnd Hproto Hg.
  assert (Haw : ∀ i key v, object !! i = Some (key, v) →
    ∃ w_i w' r, g v w_i = (Return (VPromise (Fulfils r)), w')
                ∧ is_callable r = false
                ∧ awaited (Some g) object w i key (Fulfils r)).
  { intros i key v Hi.
    destruct (Hg key v (list_elem_of_lookup_2 _ _ _ Hi)) as [Hp Hret].
    destruct (for_each_returns g (take i object)
                (Engine [] 0 (length object) Pending [] []) w)
      as (st_i & w_i & Hfe).
    { intros [k x] Hin. right. intros w1. cbn [snd].
      apply elem_of_take in Hin as (j & Hj & _).
      destruct (Hg k x (list_elem_of_lookup_2 _ _ _ Hj)) as [_ Hx].
      destruct (Hx w1) as (r & w' & -> & _). by eexists _, _. }
    destruct (Hret w_i) as (r & w' & Hr & Hc).
    exists w_i, w', r. split; [done|]. split; [done|].
    exists v. split; [done|]. rewrite Hp.
    by exists g, st_i, w_i, (VPromise (Fulfils r)), w'. }
  assert (Hall : ∀ i key v, object !! i = Some (key, v) →
            ∃ result, awaited (Some g) object w i key (Fulfils result)).
  { intros i key v Hi. destruct (Haw i key v Hi) as (_ & _ & r & _ & _ & Hr).
    by exists r. }
  assert (Hp : outer st0 = Pending).
  { apply awaited_all_pending. intros i key v Hv.
    destruct (Hall i key v Hv) as [r Hr]. by exists (Fulfils r). }
  destruct (promiseAllRecord_pending (Some g) object w Hp)
    as (_ & Hk & _). fold st0 in Hk.
  assert (Hfifo : fifo st0 = seq 0 (length object)).
  { unfold fifo.
    by rewrite <- (length_fmap fst (tasks st0)), Hk, length_fmap. }
  destruct (fulfilled_resolves (Some g) object w (fifo st0))
    as [Hr Hvalid]; [done | done | done | by rewrite Hfifo |].
  fold st0 in Hr, Hvalid.
  destruct (resolved_mapping (Some g) object w (fifo st0) Hnd Hvalid Hr)
    as (_ & Hkeys & Hvalues & Hout).
  fold st0 in Hkeys, Hvalues, Hout.
  rewrite filter_all in Hkeys
    by (apply Forall_forall; intros k Hin ->; by apply Hproto).
  exists (results (run (fifo st0) st0)).
  assert (Hvalue : ∀ i key v, object !! i = Some (key, v) →
    ∃ w_i w' r, g v w_i = (Return (VPromise (Fulfils r)), w')
                ∧ is_callable r = false
                ∧ assoc key (results (run (fifo st0) st0)) = Some r).
  { intros i key v Hi.
    destruct (Haw i key v Hi) as (w_i & w' & r & Hgr & Hc & Hr1).
    destruct (Hvalues i key v Hi) as (r' & Hr2 & Hassoc).
    exists w_i, w', r. split; [done|]. split; [done|].
    assert (r' = r) as ->.
    { apply (tasks_awaited (Some g) object w i key _ Hp) in Hr1, Hr2.
      congruence. }
    apply Hassoc. intros ->. apply Hproto.
    apply (list_elem_of_fmap_2 fst _ _ (list_elem_of_lookup_2 _ _ _ Hi)). }
  split; [|split; [done|]].
  - apply Hout; [done|]. intros t Ht.
    assert (Hin : "then"%string ∈ object.*1).
    { rewrite <- Hkeys. apply assoc_None_keys'. by rewrite Ht. }
    apply list_elem_of_fmap in Hin as ([k v] & Hkv & Hin). simpl in Hkv.
    subst k. apply list_elem_of_lookup_1 in Hin as [i Hi].
    destruct (Hvalue i _ v Hi) as (_ & _ & r & _ & Hc & Hassoc).
    congruence.
  - intros key v [i Hi]%list_elem_of_lookup_1.
    destruct (Hvalue i key v Hi) as (w_i & w' & r & Hgr & _ & Hassoc).
    by exists w_i, w', r.
Qed.



(** ** The bulk helpers *)

Lemma assoc_elem k v (o : list (string * value)) :
  assoc k o = Some v → (k, v) ∈ o.
Proof.
  induction o as [|[k' v'] o IH]; simpl; [done|].
  destruct (String.eqb_spec k' k) as [->|_].
  - intros [= ->]. left.
  - intros H. right. by apply IH.
Qed.

Lemma elem_assoc k v (o : list (string * value)) :
  NoDup o.*1 → (k, v) ∈ o → assoc k o = Some v.
Proof.
  intros Hnd [i Hi]%list_elem_of_lookup_1. by apply (assoc_lookup o i).
Qed.

(** What the two bulk transforms make of a string field. *)
Lemma field_transforms (buffer_from_object : value → completion (list Z))
    s key e :
  valid_key key → s = [] ∨ well_formed s = true →
  ∃ r e',
    promisifiedAesEncryptData (VStr s) (VStr key) e
      = (Return (VPromise (Fulfils r)), e')
    ∧ is_callable r = false ∧ isPromise r = false
    ∧ (s = [] → r = VNull)
    ∧ (s ≠ [] → ∃ blob, r = VStr blob)
    ∧ ∀ w, promisifiedAesDecryptData buffer_from_object r (VStr key) w
           = (Return (VPromise
                (Fulfils match s with [] => VNull | _ => VStr s end)), w).
Proof.
  intros Hkey [->|Hwf].
  - exists VNull, e. by repeat split.
  - destruct s as [|u s']; [by exists VNull, e|].
    set (s := u :: s') in *.
    assert (Hs : s ≠ []) by done.
    pose proof (aesEncryptData_blob s key e Hs Hkey) as Henc.
    pose proof (decrypt_encrypt buffer_from_object s key e Hs Hwf Hkey) as Hrt.
    unfold round_trip in Hrt. rewrite Henc in Hrt.
    match type of Henc with _ = (Return (VStr ?b), ?e1) =>
      exists (VStr b), e1 end.
    split.
    { unfold promisifiedAesEncryptData, promisify. by rewrite Henc. }
    split; [done|]. split; [done|]. split; [done|].
    split; [by eexists|].
    intros w. unfold promisifiedAesDecryptData, promisify. by rewrite Hrt.
Qed.

(** The bulk round trip: for a mapping that is not empty, has no own key
    [__proto__] and holds strings (well-formed ones), [bulkAesEncrypt]
    resolves to a mapping of the same keys, with a blob for each string
    that is not empty and [null] for each empty one; and [bulkAesDecrypt]
    of that mapping resolves to a mapping of the same keys that holds the
    strings again, except that an empty string has become [null]. *)
Theorem bulk_round_trip (buffer_from_object : value → completion (list Z))
    object key (e : entropy) :
  valid_key key → object ≠ [] → NoDup object.*1 →
  "__proto__"%string ∉ object.*1 →
  Forall (λ entry, ∃ s, entry.2 = VStr s ∧ (s = [] ∨ well_formed s = true))
    object →
  ∃ enc dec,
    outcome (run (fifo (bulkAesEncrypt object (VStr key) e).1)
               (bulkAesEncrypt object (VStr key) e).1)
      = Fulfils (VObj enc)
    ∧ enc.*1 ≡ₚ object.*1
    ∧ outcome
        (run (fifo (bulkAesDecrypt buffer_from_object enc (VStr key)).1)
           (bulkAesDecrypt buffer_from_object enc (VStr key)).1)
      = Fulfils (VObj dec)
    ∧ dec.*1 ≡ₚ object.*1
    ∧ ∀ k s, (k, VStr s) ∈ object →
        (s = [] → assoc k enc = Some VNull ∧ assoc k dec = Some VNull)
        ∧ (s ≠ [] → (∃ blob, assoc k enc = Some (VStr blob))
                    ∧ assoc k dec = Some (VStr s)).
Proof.
  intros Hkey Hne Hnd Hproto Hfields. rewrite Forall_forall in Hfields.
  unfold bulkAesEncrypt, bulkAesDecrypt. cbv zeta.
  set (g1 := λ value, promisifiedAesEncryptData value (VStr key)).
  set (g2 := λ value,
         promisifiedAesDecryptData buffer_from_object value (VStr key)).
  destruct (transformed_mapping g1 object e Hne Hnd Hproto) as (enc & Henc & Hk1 & Hv1).
  { intros k v Hin. destruct (Hfields _ Hin) as (s & Hs & Hwf).
    simpl in Hs. subst v. split; [done|]. intros w.
    destruct (field_transforms buffer_from_object s key w Hkey Hwf)
      as (r & e' & Hr & Hc & _). by exists r, e'. }
  assert (Hnd2 : NoDup enc.*1) by (by rewrite Hk1).
  assert (Hproto2 : "__proto__"%string ∉ enc.*1) by (by rewrite Hk1).
  assert (Hne2 : enc ≠ []).
  { intros ->. apply Permutation_nil_l in Hk1.
    destruct object; [done | discriminate Hk1]. }
  (* every value of the encrypted mapping comes from a field *)
  assert (Hfrom : ∀ k r, (k, r) ∈ enc →
    ∃ s w_i, (k, VStr s) ∈ object ∧ (s = [] ∨ well_formed s = true)
             ∧ (g1 (VStr s) w_i).1 = Return (VPromise (Fulfils r))).
  { intros k r Hin.
    assert (Hkin : k ∈ object.*1).
    { rewrite <- Hk1. by apply (list_elem_of_fmap_2 fst _ _ Hin). }
    apply list_elem_of_fmap in Hkin as ([k' v] & Hkv & Hin'). simpl in Hkv.
    subst k'. destruct (Hfields _ Hin') as (s & Hs & Hwf). simpl in Hs.
    subst v. destruct (Hv1 k (VStr s) Hin') as (w_i & w' & r' & Hg & Hassoc).
    assert (r' = r) as ->.
    { apply (elem_assoc _ _ _ Hnd2) in Hin. congruence. }
    exists s, w_i. split; [done|]. split; [done|]. by rewrite Hg. }
  assert (Hdec : ∀ k r, (k, r) ∈ enc →
    ∃ s, (k, VStr s) ∈ object ∧ isPromise r = false
         ∧ (s = [] → r = VNull) ∧ (s ≠ [] → ∃ blob, r = VStr blob)
         ∧ ∀ w, g2 r w
                = (Return (VPromise
                     (Fulfils match s with [] => VNull | _ => VStr s end)),
                   w)).
  { intros k r Hin. destruct (Hfrom k r Hin) as (s & w_i & Hin' & Hwf & Hg).
    destruct (field_transforms buffer_from_object s key w_i Hkey Hwf)
      as (r' & e' & Hr & _ & Hp & Hempty & Hblob & Hd).
    unfold g1 in Hg. rewrite Hr in Hg. cbn [fst] in Hg.
    assert (r' = r) as -> by congruence.
    by exists s. }
  destruct (transformed_mapping g2 enc tt Hne2 Hnd2 Hproto2) as (dec & Hdec' & Hk2 & Hv2).
  { intros k r Hin.
    destruct (Hdec k r Hin) as (s & _ & Hp & _ & _ & Hd).
    split; [done|]. intros w. eexists _, _. split; [apply Hd|].
    by destruct s. }
  exists enc, dec. split; [done|]. split; [done|]. split; [done|].
  split; [by rewrite Hk2|].
  intros k s Hin.
  destruct (Hv1 k (VStr s) Hin) as (w_i & w' & r & Hg & Hassoc).
  pose proof (assoc_elem _ _ _ Hassoc) as Hin2.
  destruct (Hdec k r Hin2) as (s' & Hin' & _ & Hempty & Hblob & Hd).
  assert (s' = s) as ->.
  { apply (elem_assoc _ _ _ Hnd) in Hin, Hin'. congruence. }
  destruct (Hv2 k r Hin2) as (w_j & w'' & d & Hg2 & Hassoc2).
  rewrite Hd in Hg2.
  assert (d = match s with [] => VNull | _ => VStr s end) as -> by congruence.
  split.
  - intros ->. rewrite Hassoc, Hassoc2. by rewrite Hempty.
  - intros Hs. split.
    + destruct (Hblob Hs) as [blob ->]. by exists blob.
    + rewrite Hassoc2. by destruct s.
Qed.

Lemma bulk_round_trip_witness :
  ∃ enc dec,
    outcome (run (fifo (bulkAesEncrypt
                          [("a"%string, VStr [104; 105]); ("b"%string, VStr [])]
                          (VStr (repeat 107 32)) (λ _, 7)).1)
               (bulkAesEncrypt
                  [("a"%string, VStr [104; 105]); ("b"%string, VStr [])]
                  (VStr (repeat 107 32)) (λ _, 7)).1)
      = Fulfils (VObj enc)
    ∧ enc.*1 ≡ₚ [("a"%string, VStr [104; 105]); ("b"%string, VStr [])].*1
    ∧ outcome
        (run (fifo (bulkAesDecrypt (λ _, Throw (VError InvalidArgType)) enc
                      (VStr (repeat 107 32))).1)
           (bulkAesDecrypt (λ _, Throw (VError InvalidArgType)) enc
              (VStr (repeat 107 32))).1)
      = Fulfils (VObj dec)
    ∧ dec.*1 ≡ₚ [("a"%string, VStr [104; 105]); ("b"%string, VStr [])].*1
    ∧ ∀ k s,
        (k, VStr s) ∈ [("a"%string, VStr [104; 105]); ("b"%string, VStr [])] →
        (s = [] → assoc k enc = Some VNull ∧ assoc k dec = Some VNull)
        ∧ (s ≠ [] → (∃ blob, assoc k enc = Some (VStr blob))
                    ∧ assoc k dec = Some (VStr s)).
Proof.
  apply (bulk_round_trip (λ _, Throw (VError InvalidArgType))
           [("a"%string, VStr [104; 105]); ("b"%string, VStr [])]
           (repeat 107 32) (λ _, 7)).
  - split; [|reflexivity]. cbv [repeat].
    repeat apply Forall_cons_2; try apply Forall_nil_2; unfold is_code_unit; lia.
  - discriminate.
  - apply (bool_decide_unpack _). vm_compute. reflexivity.
  - apply (bool_decide_unpack _). vm_compute. reflexivity.
  - repeat apply Forall_cons_2; [| |apply Forall_nil_2].
    + exists [104; 105]. split; [reflexivity|]. right. reflexivity.
    + exists []. split; [reflexivity|]. by left.
Defined.



Lemma subarray_short buf :
  subarray buf 0 (Some 12) = take 12 buf
  ∧ ((length buf <= 16)%nat → subarray buf (-16) None = buf).
Proof.
  unfold subarray, clamp_index. simpl default.
  set (n := Z.of_nat (length buf)).
  assert (Hn : 0 <= n) by lia.
  destruct (Z.ltb_spec 0 0); [lia|]. destruct (Z.ltb_spec 12 0); [lia|].
  destruct (Z.ltb_spec (-16) 0); [|lia]. destruct (Z.ltb_spec n 0); [lia|].
  replace (Z.min 0 n) with 0 by lia. replace (Z.to_nat 0) with 0%nat by lia.
  rewrite !drop_0. split.
  - destruct (Z.le_gt_cases 12 n).
    + rewrite Z.min_l by lia. done.
    + rewrite Z.min_r by lia. rewrite !take_ge; [done|unfold n in *; lia..].
  - intros Hlen. rewrite Z.max_r by lia. rewrite Z.min_r by lia.
    apply take_ge. unfold n. lia.
Qed.

(** The errors of [aesDecryptData] on a blob that is too short, under a
    valid key: text that decodes to no byte at all gives the nonce error,
    and text that decodes to 1, 2, 3, 5, 6, 7, 9, 10 or 11 bytes, all of
    which are taken for the tag, gives the tag length error. *)
Theorem decrypt_short_blob (buffer_from_object : value → completion (list Z))
    (s key : jsstring) :
  valid_key key → s ≠ [] →
  (Base64Url.decode s = [] →
   aesDecryptData buffer_from_object (VStr s) (VStr key)
     = Throw (VError InvalidIV))
  ∧ (length (Base64Url.decode s) ∈ [1; 2; 3; 5; 6; 7; 9; 10; 11]%nat →
     aesDecryptData buffer_from_object (VStr s) (VStr key)
       = Throw (VError InvalidAuthTagLength)).
Proof.
  intros Hkey Hs. unfold aesDecryptData.
  rewrite truthy_string, valid_key_truthy by done. cbn [negb orb buffer_from].
  destruct (subarray_short (Base64Url.decode s)) as [Hiv Htag].
  rewrite Hiv. split.
  - intros ->. unfold create_cipher. cbn [string_bytes]. done.
  - intros Hlen. rewrite Htag.
    2:{ set (n := length (Base64Url.decode s)) in *.
        repeat (apply elem_of_cons in Hlen as [->|Hlen]; [lia|]).
        by apply elem_of_nil in Hlen. }
    rewrite create_cipher_valid; [|done|].
    2:{ destruct (Base64Url.decode s); [|done].
        repeat (apply elem_of_cons in Hlen as [Hlen|Hlen]; [done|]).
        by apply elem_of_nil in Hlen. }
    set (n := length (Base64Url.decode s)) in *.
    repeat (apply elem_of_cons in Hlen as [->|Hlen]; [done|]).
    by apply elem_of_nil in Hlen.
Qed.

Lemma decrypt_short_blob_witness :
  aesDecryptData (λ _, Throw (VError InvalidArgType)) (VStr [65; 65; 65])
    (VStr (repeat 107 32))
  = Throw (VError InvalidAuthTagLength).
Proof.
  destruct (decrypt_short_blob (λ _, Throw (VError InvalidArgType))
              [65; 65; 65] (repeat 107 32)) as (_ & H).
  - split; [|reflexivity]. cbv [repeat].
    repeat apply Forall_cons_2; try apply Forall_nil_2; unfold is_code_unit; lia.
  - discriminate.
  - apply H. vm_compute. apply elem_of_list_here || (right; left).
Defined.

(** ** Array helpers *)

Lemma split_loop_length {A} i (arrayCopy : list A) result :
  length (split_loop i arrayCopy result) = (length result + i)%nat.
Proof.
  revert arrayCopy result. induction i as [|i IH]; intros arr res; simpl.
  - lia.
  - rewrite IH, length_app. simpl. lia.
Qed.

Lemma split_loop_concat {A} i (arrayCopy : list A) result :
  concat (split_loop i arrayCopy result)
  = concat result ++ match i with O => [] | S _ => arrayCopy end.
Proof.
  revert arrayCopy result. induction i as [|i IH]; intros arr res.
  - simpl. by rewrite app_nil_r.
  - cbn [split_loop]. set (n := ((length arr + i) / S i)%nat).
    rewrite IH, concat_app. cbn [concat]. rewrite app_nil_r.
    rewrite <- app_assoc. f_equal.
    destruct i as [|i].
    + assert (n = length arr) as ->
        by (unfold n; rewrite Nat.add_0_r; apply Nat.div_1_r).
      rewrite take_ge by lia. by rewrite app_nil_r.
    + apply take_drop.
Qed.

(** Every chunk cut by the loop has the size of the rest divided by the
    parts still to cut, rounded down or up. *)
Lemma split_loop_sizes {A} i (arrayCopy : list A) result :
  Forall (λ chunk, (length chunk * i < length arrayCopy + i
                    ∧ length arrayCopy < (length chunk + 1) * i)%nat
                   ∨ chunk ∈ result)
    (split_loop i arrayCopy result).
Proof.
  revert arrayCopy result. induction i as [|i IH]; intros arr res.
  - simpl. apply Forall_forall. intros chunk Hin. by right.
  - cbn [split_loop].
    set (n := ((length arr + i) / S i)%nat).
    assert (Hn : (n * S i <= length arr + i)%nat).
    { unfold n. rewrite Nat.mul_comm. apply Nat.Div0.mul_div_le. }
    assert (Hn' : (length arr <= n * S i)%nat).
    { unfold n. pose proof (Nat.div_mod (length arr + i) (S i)).
      pose proof (Nat.mod_upper_bound (length arr + i) (S i)). nia. }
    assert (Hle : (n <= length arr)%nat) by nia.
    eapply Forall_impl; [apply IH|].
    intros chunk [[Hup Hlow]|[Hin|Hin%list_elem_of_singleton]%elem_of_app].
    + left. rewrite length_drop in Hup, Hlow.
      set (c := length chunk) in *.
      assert (Hr : ∃ r, (r + n = length arr)%nat)
        by (exists (length arr - n)%nat; lia).
      destruct Hr as [r Hr].
      replace (length arr - n)%nat with r in Hup, Hlow by lia.
      rewrite <- Hr in *. clear Hr Hle.
      assert (c <= n)%nat by nia.
      assert (n <= c + 1)%nat by nia.
      nia.
    + by right.
    + left. subst chunk. rewrite length_take. nia.
Qed.

(** [splitArrayToChunks]: as many chunks as parts; for at least one part
    the chunks, joined in order, are the array, and every chunk has the
    array's length divided by the parts, rounded down or up, so that the
    sizes differ by at most one; for no part (or a negative number) the
    result is empty and the elements are lost. *)
Theorem split_chunks {A} (array : list A) (parts : Z) :
  length (splitArrayToChunks array parts) = Z.to_nat parts
  ∧ (0 < parts → concat (splitArrayToChunks array parts) = array)
  ∧ (0 < parts →
     Forall (λ chunk,
               (length array / Z.to_nat parts <= length chunk
                ∧ length chunk
                  <= (length array + Z.to_nat parts - 1) / Z.to_nat parts)%nat)
       (splitArrayToChunks array parts))
  ∧ (parts <= 0 → splitArrayToChunks array parts = []).
Proof.
  unfold splitArrayToChunks. split; [|split; [|split]].
  - by rewrite split_loop_length.
  - intros Hp. rewrite split_loop_concat.
    destruct (Z.to_nat parts) eqn:Hn; [lia | done].
  - intros Hp. eapply Forall_impl; [apply split_loop_sizes|].
    intros chunk [[Hup Hlow]|H%elem_of_nil]; [|done]. cbv beta.
    assert (Hpos : (0 < Z.to_nat parts)%nat) by lia.
    set (p := Z.to_nat parts) in *. split.
    + apply Nat.lt_succ_r, Nat.Div0.div_lt_upper_bound. lia.
    + apply Nat.div_le_lower_bound; lia.
  - intros Hp. by replace (Z.to_nat parts) with 0%nat by lia.
Qed.

Lemma split_chunks_witness :
  concat (splitArrayToChunks [1; 2; 3; 4; 5; 6; 7] 3) = [1; 2; 3; 4; 5; 6; 7]
  ∧ splitArrayToChunks [1; 2; 3; 4; 5; 6; 7] 3 = [[1; 2; 3]; [4; 5]; [6; 7]].
Proof.
  split; [|reflexivity].
  destruct (split_chunks [1; 2; 3; 4; 5; 6; 7] 3) as (_ & H & _).
  apply H. lia.
Defined.

(** ** Defaults *)

(** [StringMaybe] keeps every truthy value, of whatever type, and gives the
    empty string for every falsy one, for [0] and [false] as for
    [undefined] and [null]; so its result is a string as soon as it is
    falsy, and applying it twice is applying it once. *)
Theorem string_maybe (str : value) :
  (truthy str = true → StringMaybe str = str)
  ∧ (truthy str = false → StringMaybe str = VStr [])
  ∧ (truthy (StringMaybe str) = false → StringMaybe str = VStr [])
  ∧ truthy (StringMaybe str) = truthy str
  ∧ StringMaybe (StringMaybe str) = StringMaybe str.
Proof.
  unfold StringMaybe.
  destruct (truthy str) eqn:Hstr; rewrite ?Hstr; by repeat split.
Qed.

Lemma string_maybe_witness :
  StringMaybe (VNum 0) = VStr [] ∧ StringMaybe (VStr [104; 105]) = VStr [104; 105].
Proof.
  split.
  - by apply (string_maybe (VNum 0)).
  - by apply (string_maybe (VStr [104; 105])).
Defined.
